(** * Diagram-to-graph population: a shallow embedding of
    [classdiagram-to-neo4j/scripts/populate_neo4j.py]

    The Python module is embedded function by function.  Documents are
    JSON values (what [json.load] hands to the program), Python
    exceptions are an explicit [result], and the property-graph store is
    a list of nodes and a list of edges on which the Cypher statements of
    the module run as sequences of MERGE and SET clauses. *)

From Stdlib Require Import ZArith Ascii String.
From stdpp Require Import gmap strings list fin_maps pretty.

Open Scope string_scope.
Open Scope list_scope.
#[local] Set Warnings "-register-all".

(** ** JSON documents and the Python operations used on them *)

(** The values [json.load] produces.  Numbers are the integers; a JSON
    object is kept as its list of members in document order.  The
    dictionaries [json.load] builds have distinct keys; on a list that
    repeats a key the operations below read the first member. *)
Inductive json :=
| JNull
| JBool (b : bool)
| JNum (n : Z)
| JStr (s : string)
| JList (l : list json)
| JDict (d : list (string * json)).

Abbreviation dict := (list (string * json)).

(** The messages [validate_extracted_data] collects, one constructor for
    each format string of the source. *)
Inductive verr :=
| MissingKey (key : string)
| NotADictionary (key : string)
| NotAList (key : string)
| EntityNotDict (entity_name : string)
| InvalidKind (entity_name : string) (kind : json)
| PropertiesNotList (entity_name : string)
| PropertyNotDict (entity_name : string) (prop_idx : nat)
| PropertyMissingName (entity_name : string) (prop_idx : nat)
| PropertyTypeNotStr (entity_name : string) (prop_idx : nat)
| RelNotDict (i : nat)
| RelMissing (i : nat) (key : string)
| RelEntityNotFound (i : nat) (key : string) (name : json)
| CardNotStr (field_name : string)
| CardInvalidFormat (field_name : string) (card : string)
| InvalidDirection (i : nat) (direction : json)
| RelTypeNotStr (i : nat).

(** The exceptions the module can end with. *)
Inductive exn :=
| ImportError
| ValueError (errors : list verr)
| TypeError
| AttributeError
| KeyError
| CypherError.

Inductive result (A : Type) :=
| Ok (a : A)
| Raise (e : exn).
Arguments Ok {A} a.
Arguments Raise {A} e.

#[export] Instance result_bind : MBind result := λ A B f m,
  match m with
  | Ok a => f a
  | Raise e => Raise e
  end.
#[export] Instance result_ret : MRet result := λ A a, Ok a.

Fixpoint rmapM {A B} (f : A → result B) (l : list A) : result (list B) :=
  match l with
  | [] => Ok []
  | a :: l' => b ← f a; bs ← rmapM f l'; Ok (b :: bs)
  end.

(** [bool(v)] *)
Definition truthy (v : json) : bool :=
  match v with
  | JNull => false
  | JBool b => b
  | JNum n => negb (n =? 0)%Z
  | JStr s => negb (s =? "")
  | JList l => match l with [] => false | _ => true end
  | JDict d => match d with [] => false | _ => true end
  end.

(** [a or b] *)
Definition py_or (a b : json) : json := if truthy a then a else b.

(** [d[k]] as an option, [k in d], [d.get(k)] and [d.get(k, default)]
    for a dictionary [d]. *)
Fixpoint dict_lookup (k : string) (d : dict) : option json :=
  match d with
  | [] => None
  | (k', v) :: d' => if k' =? k then Some v else dict_lookup k d'
  end.

Definition dict_has (k : string) (d : dict) : bool :=
  match dict_lookup k d with Some _ => true | None => false end.

Definition dict_get (k : string) (d : dict) : json :=
  default JNull (dict_lookup k d).

Definition dict_get_default (k : string) (dflt : json) (d : dict) : json :=
  default dflt (dict_lookup k d).

Definition in_strs (s : string) (l : list string) : bool :=
  existsb (String.eqb s) l.

(** [v in S] for a set [S] of strings: lists and dictionaries cannot be
    hashed, every other value is looked up and only a string can be found. *)
Definition py_in_set (v : json) (S : list string) : result bool :=
  match v with
  | JStr s => Ok (in_strs s S)
  | JList _ | JDict _ => Raise TypeError
  | _ => Ok false
  end.

(** [s.startswith(p)], [s.endswith(p)], [p in s] on strings. *)
Fixpoint startswith (s p : string) : bool :=
  match p, s with
  | EmptyString, _ => true
  | String a p', String b s' => (a =? b)%char && startswith s' p'
  | String _ _, EmptyString => false
  end.

Fixpoint endswith_fix (s p : string) : bool :=
  (String.length s =? String.length p)%nat && (s =? p) ||
  match s with
  | EmptyString => false
  | String _ s' => endswith_fix s' p
  end.
Definition endswith (s p : string) : bool := endswith_fix s p.

Fixpoint substring_of (p s : string) : bool :=
  startswith s p ||
  match s with
  | EmptyString => false
  | String _ s' => substring_of p s'
  end.

(** [k in v] for a string [k] and any value [v]: key of a dictionary,
    substring of a string, element of a list; anything else is not
    iterable. *)
Definition py_contains (k : string) (v : json) : result bool :=
  match v with
  | JDict d => Ok (dict_has k d)
  | JStr s => Ok (substring_of k s)
  | JList l => Ok (existsb (fun x => match x with JStr s => s =? k | _ => false end) l)
  | _ => Raise TypeError
  end.

(** [v[k]] for a string [k]. *)
Definition py_getitem (v : json) (k : string) : result json :=
  match v with
  | JDict d => match dict_lookup k d with Some x => Ok x | None => Raise KeyError end
  | _ => Raise TypeError
  end.

(** ** Validator *)

(** [VALID_CARDINALITY_PATTERNS], [VALID_DIRECTIONS], [ALLOWED_KINDS] *)
Definition VALID_CARDINALITY_PATTERNS : list string :=
  ["0..1"; "0..*"; "1"; "1..*"; "1..1"; "*";
   "0..0"; "1..0"; "0..n"; "1..n"; "n"; "m..n"].

Definition VALID_DIRECTIONS : list string := ["out"; "in"; "bidirectional"].

Definition ALLOWED_KINDS : list string := ["Entity"; "RefType"; "SchemaBlock"].

(** The two regular expressions of [validate_cardinality] are sequences
    of one-character atoms, [c] or [c*]; [re.match] anchors at the start
    and the final [$] matches at the end of the string or just before a
    newline that ends it.  [\d] is the ASCII digits. *)
Inductive atom :=
| One (c : ascii → bool)
| Star (c : ascii → bool).

Definition at_end (s : string) : bool :=
  match s with
  | EmptyString => true
  | String a EmptyString => (a =? "010")%char
  | _ => false
  end.

Fixpoint re_match (p : list atom) : string → bool :=
  match p with
  | [] => at_end
  | One c :: p' => fun s =>
      match s with
      | String a s' => c a && re_match p' s'
      | EmptyString => false
      end
  | Star c :: p' =>
      fix star (s : string) : bool :=
        re_match p' s ||
        match s with
        | String a s' => c a && star s'
        | EmptyString => false
        end
  end.

Definition is_digit (a : ascii) : bool :=
  let n := nat_of_ascii a in (48 <=? n)%nat && (n <=? 57)%nat.
Definition is_char (c : ascii) (a : ascii) : bool := (a =? c)%char.
Definition plus (c : ascii → bool) : list atom := [One c; Star c].

(** [^\d+\.\.\d+$] and [^\d+\.\.\*$] *)
Definition re_range : list atom :=
  plus is_digit ++ [One (is_char "."); One (is_char ".")] ++ plus is_digit.
Definition re_open_range : list atom :=
  plus is_digit ++ [One (is_char "."); One (is_char "."); One (is_char "*")].

Definition validate_cardinality (card : json) (field_name : string) : option verr :=
  match card with
  | JNull => None
  | JStr card =>
      if in_strs card VALID_CARDINALITY_PATTERNS then None
      else if re_match re_range card then None
      else if re_match re_open_range card then None
      else Some (CardInvalidFormat field_name card)
  | _ => Some (CardNotStr field_name)
  end.

Definition opt_list {A} (o : option A) : list A :=
  match o with Some a => [a] | None => [] end.

(** The name [validate_extracted_data] gives a cardinality field of
    relationship [i] in its messages: [f"Relationship[{i}].{key}"]. *)
Definition rel_field (i : nat) (key : string) : string :=
  "Relationship[" +:+ pretty i +:+ "]." +:+ key.

(** Body of the loop over [entity_data["properties"]]. *)
Definition validate_property (entity_name : string) (prop_idx : nat) (prop : json)
  : list verr :=
  match prop with
  | JDict p =>
      (if dict_has "name" p then [] else [PropertyMissingName entity_name prop_idx]) ++
      match dict_lookup "type" p with
      | Some (JStr _) | None => []
      | Some _ => [PropertyTypeNotStr entity_name prop_idx]
      end
  | _ => [PropertyNotDict entity_name prop_idx]
  end.

(** Body of the loop over [data["entities"].items()]. *)
Definition validate_entity (entity_name : string) (entity_data : json)
  : result (list verr) :=
  match entity_data with
  | JDict e =>
      kind_errors ←
        match dict_lookup "kind" e with
        | Some kind =>
            ok ← py_in_set kind ALLOWED_KINDS;
            Ok (if ok : bool then [] else [InvalidKind entity_name kind])
        | None => Ok []
        end;
      Ok (kind_errors ++
          match dict_lookup "properties" e with
          | Some (JList props) => mjoin (imap (validate_property entity_name) props)
          | Some _ => [PropertiesNotList entity_name]
          | None => []
          end)
  | _ => Ok [EntityNotDict entity_name]
  end.

Definition validate_endpoint (entity_names : list string) (i : nat) (key : string)
    (rel : dict) : result (list verr) :=
  match dict_lookup key rel with
  | None => Ok [RelMissing i key]
  | Some name =>
      found ← py_in_set name entity_names;
      Ok (if found : bool then [] else [RelEntityNotFound i key name])
  end.

Definition validate_card_key (i : nat) (key : string) (rel : dict) : list verr :=
  match dict_lookup key rel with
  | Some card => opt_list (validate_cardinality card (rel_field i key))
  | None => []
  end.

(** Body of the loop over [enumerate(data["relationships"])].  A truthy
    [type] that is not a string is reported and then fails on
    [rel_type.startswith]. *)
Definition validate_relationship (entity_names : list string) (i : nat) (rel : json)
  : result (list verr) :=
  match rel with
  | JDict r =>
      e_from ← validate_endpoint entity_names i "from" r;
      e_to ← validate_endpoint entity_names i "to" r;
      let e_card := validate_card_key i "fromCardinality" r ++
                    validate_card_key i "toCardinality" r ++
                    validate_card_key i "cardinality" r in
      e_dir ←
        match dict_lookup "direction" r with
        | Some direction =>
            ok ← py_in_set direction VALID_DIRECTIONS;
            Ok (if ok : bool then [] else [InvalidDirection i direction])
        | None => Ok []
        end;
      _ ←
        match dict_lookup "type" r with
        | Some rel_type =>
            if truthy rel_type
            then match rel_type with JStr _ => Ok () | _ => Raise AttributeError end
            else Ok ()
        | None => Ok ()
        end;
      Ok (e_from ++ e_to ++ e_card ++ e_dir)
  | _ => Ok [RelNotDict i]
  end.

Fixpoint rconcat_imap {A} (f : nat → A → result (list verr)) (i : nat) (l : list A)
  : result (list verr) :=
  match l with
  | [] => Ok []
  | a :: l' => e ← f i a; es ← rconcat_imap f (S i) l'; Ok (e ++ es)
  end.

Definition validate_extracted_data (data : dict) : result (list verr) :=
  let entities := dict_lookup "entities" data in
  let relationships := dict_lookup "relationships" data in
  let '(errors1, entity_names) :=
    match entities with
    | None => ([MissingKey "entities"], [])
    | Some (JDict ents) => ([], ents.*1)
    | Some _ => ([NotADictionary "entities"], [])
    end in
  let errors2 :=
    match relationships with
    | None => [MissingKey "relationships"]
    | Some (JList _) => []
    | Some _ => [NotAList "relationships"]
    end in
  errors3 ←
    match entities with
    | Some (JDict ents) => rconcat_imap (fun _ '(name, e) => validate_entity name e) 0 ents
    | _ => Ok []
    end;
  errors4 ←
    match relationships with
    | Some (JList rels) => rconcat_imap (validate_relationship entity_names) 0 rels
    | _ => Ok []
    end;
  Ok (errors1 ++ errors2 ++ errors3 ++ errors4).

(** ** IdentityResolver *)

Definition generate_fqn (spec_id entity_name : string) : string :=
  spec_id +:+ "#" +:+ entity_name.

(** [determine_entity_kind]: the suffix test comes first and does not look
    at [entity_data]; the result is the string the function returns. *)
Definition determine_entity_kind (entity_name : string) (entity_data : json)
  : result string :=
  if endswith entity_name "Ref" || endswith entity_name "Reference" then Ok "RefType"
  else
    declared ← py_contains "kind" entity_data;
    if declared : bool then
      kind ← py_getitem entity_data "kind";
      allowed ← py_in_set kind ALLOWED_KINDS;
      if allowed : bool then
        match kind with JStr k => Ok k | _ => Ok "Entity" end
      else Ok "Entity"
    else Ok "Entity".

(** *** [pathlib.Path] on a POSIX system *)

Fixpoint split_on_fix (sep : ascii) (cur : string) (s : string) : list string :=
  match s with
  | EmptyString => [String.rev cur]
  | String a s' =>
      if (a =? sep)%char then String.rev cur :: split_on_fix sep EmptyString s'
      else split_on_fix sep (String a cur) s'
  end.
(** [s.split(sep)] for a one-character separator. *)
Definition split_on (sep : ascii) (s : string) : list string :=
  split_on_fix sep EmptyString s.

(** [Path(p).parts]: the root, if any, then the components that are
    neither empty nor ["."]. *)
Definition path_root (p : string) : list string :=
  if startswith p "///" then ["/"]
  else if startswith p "//" then ["//"]
  else if startswith p "/" then ["/"]
  else [].
Definition path_names (p : string) : list string :=
  filter (fun c => c ≠ "" ∧ c ≠ ".") (split_on "/" p).
Definition path_parts (p : string) : list string := path_root p ++ path_names p.

(** [Path(p).name] and [Path(p).stem] (the name up to its last dot, when
    that dot is neither its first nor its last character). *)
Definition path_name (p : string) : string := default "" (last (path_names p)).

Fixpoint rfind_dot (s : string) (i : nat) (found : option nat) : option nat :=
  match s with
  | EmptyString => found
  | String a s' => rfind_dot s' (S i) (if (a =? ".")%char then Some i else found)
  end.

Definition stem_of_name (name : string) : string :=
  match rfind_dot name 0 None with
  | Some i =>
      if decide (0 < i ∧ i < String.length name - 1)
      then String.substring 0 i name else name
  | None => name
  end.
Definition path_stem (p : string) : string := stem_of_name (path_name p).

(** [stem.split("_", 1)] when ["_" in stem]. *)
Fixpoint split_first (sep : ascii) (s : string) : option (string * string) :=
  match s with
  | EmptyString => None
  | String a s' =>
      if (a =? sep)%char then Some (EmptyString, s')
      else '(h, t) ← split_first sep s'; Some (String a h, t)
  end.

Definition spec_token (s : string) : bool := startswith s "tmf" || startswith s "spec".

(** [parts[-2]] when [len(parts) >= 2]. *)
Definition penultimate {A} (l : list A) : option A :=
  match rev l with _ :: x :: _ => Some x | _ => None end.

(** The part of [derive_spec_id] that reads the path.  After the test of
    the parent directory, a stem with an underscore overwrites the variable
    [parts] with the two halves of the stem, so the final [parts[-2]] is
    the path's parent only for a stem without underscore. *)
Definition derive_from_path (p : string) : string * string :=
  let parts := path_parts p in
  let stem := path_stem p in
  let by_parent :=
    parent ← penultimate parts;
    if spec_token parent then Some (parent, stem) else None in
  match by_parent with
  | Some r => r
  | None =>
      let halves := split_first "_" stem in
      let parts := match halves with Some (h, t) => [h; t] | None => parts end in
      let by_prefix :=
        '(h, t) ← halves;
        if spec_token h then Some (h, t) else None in
      match by_prefix with
      | Some r => r
      | None => (default "default" (penultimate parts), stem)
      end
  end.

(** [derive_spec_id].  [source_path] is what [meta.get("source", "unknown")]
    gave; [Path] refuses anything but a string. *)
Definition derive_spec_id (source_path : json) (meta : dict) : result (json * json) :=
  match dict_lookup "specId" meta with
  | Some spec_id =>
      let diagramId := dict_get "diagramId" meta in
      if truthy diagramId then Ok (spec_id, diagramId)
      else match source_path with
           | JStr p => Ok (spec_id, JStr (path_stem p))
           | _ => Raise TypeError
           end
  | None =>
      match source_path with
      | JStr p => let '(spec_id, diagram_id) := derive_from_path p in
                  Ok (JStr spec_id, JStr diagram_id)
      | _ => Raise TypeError
      end
  end.

(** ** The property-graph store

    A node carries labels and properties, an edge a type and properties;
    a node is identified by its position in [nodes] (nothing is ever
    deleted).  Property values are JSON values.  The identities the
    program matches on ([id], [fqn], [diagramId], [specId]) are strings,
    as the signature of [derive_spec_id] promises. *)
Record node := Node { n_labels : list string; n_props : gmap string json }.
Record edge := Edge { e_src : nat; e_type : string; e_dst : nat;
                      e_props : gmap string json }.
Record graph := Graph { nodes : list node; edges : list edge }.

Definition empty_graph : graph := Graph [] [].

Abbreviation assigns := (list (string * json)).

(** [SET x.k = v]; assigning [null] removes the property. *)
Definition stored (v : json) : option json :=
  match v with JNull => None | _ => Some v end.
Definition set_prop (m : gmap string json) (kv : string * json) : gmap string json :=
  partial_alter (λ _, stored kv.2) kv.1 m.
Definition set_props (a : assigns) (m : gmap string json) : gmap string json :=
  foldl set_prop m a.

(** [x.k = 'val'] *)
Definition has_prop (key val : string) (m : gmap string json) : bool :=
  match m !! key with Some (JStr s) => s =? val | _ => false end.

(** Node patterns: [(x:lbl {key: 'val'})] and [(x) WHERE x.key = 'val']. *)
Inductive pattern :=
| Labelled (lbl key val : string)
| Keyed (key val : string).

Definition pat_key (p : pattern) : string :=
  match p with Labelled _ k _ | Keyed k _ => k end.

Definition matches (p : pattern) (n : node) : bool :=
  match p with
  | Labelled lbl key val => in_strs lbl (n_labels n) && has_prop key val (n_props n)
  | Keyed key val => has_prop key val (n_props n)
  end.

Definition matches_at (p : pattern) (ns : list node) (i : nat) : bool :=
  match ns !! i with Some n => matches p n | None => false end.

Definition matching (p : pattern) (ns : list node) : list nat :=
  List.filter (matches_at p ns) (seq 0 (length ns)).

(** The write clauses of the module's statements.  A statement is run
    clause by clause, each clause over all its rows in order:
    - [MergeNode]: [MERGE (x:lbl {key: val})], creating the node when no
      node matches;
    - [SetNode]: [SET x.k = v, ...] on every node bound by the pattern;
    - [MergeEdge]: [MERGE (a)-[:ty]->(b)] for every pair of nodes bound
      by the two patterns, creating the edge when the pair has none of
      that type;
    - [SetEdge]: [SET r.k = v, ...] on every edge of that type between
      nodes bound by the two patterns. *)
Inductive clause :=
| MergeNode (lbl key val : string)
| SetNode (p : pattern) (a : assigns)
| MergeEdge (pa : pattern) (ty : string) (pb : pattern)
| SetEdge (pa : pattern) (ty : string) (pb : pattern) (a : assigns).

Definition set_node (a : assigns) (n : node) : node :=
  Node (n_labels n) (set_props a (n_props n)).
Definition set_edge (a : assigns) (e : edge) : edge :=
  Edge (e_src e) (e_type e) (e_dst e) (set_props a (e_props e)).

Definition joins (i : nat) (ty : string) (j : nat) (e : edge) : bool :=
  (e_src e =? i)%nat && (e_type e =? ty) && (e_dst e =? j)%nat.

Definition merge_edge (ty : string) (es : list edge) (ij : nat * nat) : list edge :=
  if existsb (joins ij.1 ty ij.2) es then es else es ++ [Edge ij.1 ty ij.2 ∅].

Definition pairs (pa pb : pattern) (ns : list node) : list (nat * nat) :=
  i ← matching pa ns; j ← matching pb ns; [(i, j)].

Definition edge_bound (pa : pattern) (ty : string) (pb : pattern) (ns : list node)
    (e : edge) : bool :=
  (e_type e =? ty) && matches_at pa ns (e_src e) && matches_at pb ns (e_dst e).

Definition node_step (c : clause) (n : node) : node :=
  match c with
  | SetNode p a => if matches p n then set_node a n else n
  | _ => n
  end.

Definition edge_step (ns : list node) (c : clause) (e : edge) : edge :=
  match c with
  | SetEdge pa ty pb a => if edge_bound pa ty pb ns e then set_edge a e else e
  | _ => e
  end.

Definition exec1 (g : graph) (c : clause) : graph :=
  match c with
  | MergeNode lbl key val =>
      if existsb (matches (Labelled lbl key val)) (nodes g) then g
      else Graph (nodes g ++ [Node [lbl] {[key := JStr val]}]) (edges g)
  | SetNode _ _ => Graph (map (node_step c) (nodes g)) (edges g)
  | MergeEdge pa ty pb =>
      Graph (nodes g) (foldl (merge_edge ty) (edges g) (pairs pa pb (nodes g)))
  | SetEdge _ _ _ _ => Graph (nodes g) (map (edge_step (nodes g) c) (edges g))
  end.

Definition exec (cs : list clause) (g : graph) : graph := foldl exec1 g cs.

(** ** SchemaManager *)

Inductive event :=
| Connected
| Statement (query : string)
| Closed.

(** What the server answers: the value of [versions[0]] ([None] when the
    call fails or returns no record). *)
Record server := Server { srv_version : option json }.

Definition constraints : list string :=
  ["CREATE CONSTRAINT entity_fqn IF NOT EXISTS FOR (e:Entity) REQUIRE e.fqn IS UNIQUE;";
   "CREATE CONSTRAINT reftype_fqn IF NOT EXISTS FOR (r:RefType) REQUIRE r.fqn IS UNIQUE;";
   "CREATE CONSTRAINT schema_block_id IF NOT EXISTS FOR (s:SchemaBlock) REQUIRE s.id IS UNIQUE;";
   "CREATE CONSTRAINT field_fqn IF NOT EXISTS FOR (f:Field) REQUIRE f.fqn IS UNIQUE;"].

Definition node_indexes : list string :=
  ["CREATE INDEX entity_name IF NOT EXISTS FOR (e:Entity) ON (e.name);";
   "CREATE INDEX entity_spec_id IF NOT EXISTS FOR (e:Entity) ON (e.specId);";
   "CREATE INDEX reftype_name IF NOT EXISTS FOR (r:RefType) ON (r.name);";
   "CREATE INDEX field_name IF NOT EXISTS FOR (f:Field) ON (f.name);"].

Definition rel_indexes : list string :=
  ["CREATE INDEX relationship_type IF NOT EXISTS FOR ()-[r:RELATES_TO]-() ON (r.type);";
   "CREATE INDEX relationship_cardinality IF NOT EXISTS FOR ()-[r:RELATES_TO]-() ON (r.cardinality);"].

Definition version_query : string :=
  "CALL dbms.components() YIELD name, versions RETURN versions[0] as version".

(** [int(s)] for a decimal string: surrounding white space, a sign, and
    single underscores between digits are accepted. *)
Definition is_space (a : ascii) : bool :=
  let n := nat_of_ascii a in
  ((9 <=? n)%nat && (n <=? 13)%nat) || ((28 <=? n)%nat && (n <=? 32)%nat).

Fixpoint lstrip (s : string) : string :=
  match s with
  | String a s' => if is_space a then lstrip s' else s
  | EmptyString => s
  end.
Definition strip (s : string) : string := String.rev (lstrip (String.rev (lstrip s))).

(** [digits acc after_digit s]: [after_digit] tells whether the previous
    character was a digit, the only place where an underscore or the end
    may come. *)
Fixpoint digits (acc : Z) (after_digit : bool) (s : string) : result Z :=
  match s with
  | EmptyString => if after_digit then Ok acc else Raise (ValueError [])
  | String a s' =>
      if is_digit a
      then digits (10 * acc + Z.of_nat (nat_of_ascii a - 48))%Z true s'
      else if (a =? "_")%char && after_digit then digits acc false s'
      else Raise (ValueError [])
  end.

Definition py_int (s : string) : result Z :=
  match strip s with
  | String "-" s' => n ← digits 0 false s'; Ok (- n)%Z
  | String "+" s' => digits 0 false s'
  | s' => digits 0 false s'
  end.

(** The [try] block of [create_stable_indexes]: [Ok true] is the early
    [return], a [Raise] is swallowed by [except Exception: pass]. *)
Definition version_too_old (srv : server) : result bool :=
  match srv_version srv with
  | Some (JStr version_str) =>
      let version_parts := split_on "." version_str in
      major ← py_int (default "" (version_parts !! 0%nat));
      minor ← match version_parts !! 1%nat with
              | Some part => py_int part
              | None => Ok 0%Z
              end;
      Ok ((major <? 4)%Z || ((major =? 4)%Z && (minor <? 3)%Z))
  | Some _ => Raise AttributeError
  | None => Raise CypherError
  end.

(** The statements [create_stable_constraints] and [create_stable_indexes]
    send, in order.  Each [session.run] sits in its own [try]: a statement
    the server refuses is logged and the function goes on, so neither
    function raises. *)
Definition create_stable_constraints : list event := Statement <$> constraints.

Definition create_stable_indexes (srv : server) (check_server_version : bool)
  : list event :=
  (Statement <$> node_indexes) ++
  if check_server_version then
    Statement version_query ::
    match version_too_old srv with
    | Ok true => []
    | Ok false | Raise _ => Statement <$> rel_indexes
    end
  else Statement <$> rel_indexes.

(** ** GraphWriter *)

(** The run: the store, and the connection and schema statements seen so
    far.  A step returns a value or raises, and may change the world.  A
    statement that fails changes nothing (each [session.run] is its own
    transaction). *)
Record world := World { w_graph : graph; w_trace : list event }.

Definition M (A : Type) : Type := world → world * result A.

#[export] Instance M_ret : MRet M := λ A a w, (w, Ok a).
#[export] Instance M_bind : MBind M := λ A B f m w,
  match m w with
  | (w', Ok a) => f a w'
  | (w', Raise e) => (w', Raise e)
  end.

Definition raise {A} (e : exn) : M A := λ w, (w, Raise e).
Definition lift {A} (r : result A) : M A := λ w, (w, r).
Definition emit (evs : list event) : M unit :=
  λ w, (World (w_graph w) (w_trace w ++ evs), Ok ()).
Definition run_write (cs : result (list clause)) : M unit :=
  λ w, match cs with
       | Ok cs => (World (exec cs (w_graph w)) (w_trace w), Ok ())
       | Raise e => (w, Raise e)
       end.
Definition run_read {A} (f : graph → result A) : M A := λ w, (w, f (w_graph w)).
Definition when (b : bool) (m : M unit) : M unit := if b then m else mret ().
(** [try: m finally: h] *)
Definition finally {A} (m : M A) (h : M unit) : M A :=
  λ w, let '(w', r) := m w in let '(w'', _) := h w' in (w'', r).

(** What the run needs from outside the document: whether the [neo4j]
    package could be imported, the server, and
    [datetime.utcnow().isoformat()] at the time the SchemaBlock is written. *)
Record env := Env { driver_installed : bool; srv : server; utcnow : string }.

(** A value used where the statements need an identity. *)
Definition as_str (v : json) : result string :=
  match v with JStr s => Ok s | _ => Raise CypherError end.

Definition prop (n : node) (k : string) : json := default JNull (n_props n !! k).

(** [create_schema_block]: the MERGE/SET statement and the row it returns
    ([result.single()], the first node bound). *)
Definition schema_block_pattern (diagram_id : string) : pattern :=
  Labelled "SchemaBlock" "id" diagram_id.

Definition query_schema_block (spec_id diagram_id : string)
    (title version artifact extractedAt : json) : list clause :=
  [MergeNode "SchemaBlock" "id" diagram_id;
   SetNode (schema_block_pattern diagram_id)
     [("specId", JStr spec_id); ("diagramId", JStr diagram_id); ("title", title);
      ("version", version); ("artifact", artifact); ("extractedAt", extractedAt)]].

Definition returned_row (diagram_id : string) (g : graph) : result (json * json) :=
  match List.filter (matches (schema_block_pattern diagram_id)) (nodes g) with
  | sb :: _ => Ok (prop sb "specId", prop sb "diagramId")
  | [] => Raise TypeError
  end.

Definition meta_of (data : dict) : result dict :=
  match dict_lookup "meta" data with
  | None => Ok []
  | Some (JDict meta) => Ok meta
  | Some _ => Raise AttributeError
  end.

Definition create_schema_block (ev : env) (data : dict) : M (json * json) :=
  meta ← lift (meta_of data);
  let source := dict_get_default "source" (JStr "unknown") meta in
  ids ← lift (derive_spec_id source meta);
  spec_id ← lift (as_str ids.1);
  diagram_id ← lift (as_str ids.2);
  _ ← run_write (Ok (query_schema_block spec_id diagram_id
         (dict_get_default "title"
            (JStr ("Schema Block: " +:+ spec_id +:+ "/" +:+ diagram_id)) meta)
         (dict_get_default "version" (JStr "1.0") meta)
         (dict_get_default "source" source meta)
         (dict_get_default "extracted_at" (JStr (utcnow ev +:+ "Z")) meta)));
  run_read (returned_row diagram_id).

(** The two entity statements: [query_entity] and [query_reftype] differ in
    the label and in the literal written to [kind].  The rows are the
    items [(entity_name, entity_data)] with the run's [spec_id];
    [data.label] needs a map or null. *)
Definition coalesce_label (data : json) (name : string) : result json :=
  match data with
  | JDict d => Ok (match dict_get "label" d with JNull => JStr name | l => l end)
  | JNull => Ok (JStr name)
  | _ => Raise CypherError
  end.

Definition query_nodes (lbl kind : string) (spec_id : json) (items : list (string * json))
  : result (list clause) :=
  spec_id ← as_str spec_id;
  sets ← rmapM (λ '(name, data),
            label ← coalesce_label data name;
            Ok (SetNode (Labelled lbl "fqn" (generate_fqn spec_id name))
                  [("name", JStr name); ("label", label);
                   ("specId", JStr spec_id); ("kind", JStr kind)])) items;
  Ok (((λ '(name, _), MergeNode lbl "fqn" (generate_fqn spec_id name)) <$> items) ++ sets).

Definition query_entity := query_nodes "Entity" "Entity".
Definition query_reftype := query_nodes "RefType" "RefType".

(** The records a statement returns, stored into [entity_fqns]. *)
Definition returned_fqns (spec_id : json) (items : list (string * json))
  : list (string * string) :=
  match spec_id with
  | JStr s => (λ '(name, _), (name, generate_fqn s name)) <$> items
  | _ => []
  end.

Fixpoint fqns_get (name : string) (entity_fqns : list (string * string)) : option string :=
  match entity_fqns with
  | [] => None
  | (k, v) :: rest => if k =? name then Some v else fqns_get name rest
  end.

(** [x.items()] *)
Definition items_of (v : json) : result dict :=
  match v with JDict d => Ok d | _ => Raise AttributeError end.

(** [for x in v] *)
Definition iterate (v : json) : result (list json) :=
  match v with
  | JList l => Ok l
  | JDict d => Ok (JStr <$> d.*1)
  | JStr s => Ok ((λ a, JStr (String a EmptyString)) <$> list_ascii_of_string s)
  | _ => Raise TypeError
  end.

(** The block "Bulk create entities using UNWIND". *)
Definition upsert_entities (data : dict) (spec_id : json) : M (list (string * string)) :=
  match dict_lookup "entities" data with
  | Some entities =>
      ents ← lift (items_of entities);
      kinds ← lift (rmapM (λ '(name, entity_data),
                 kind ← determine_entity_kind name entity_data;
                 Ok (name, entity_data, kind)) ents);
      let entity_items := (List.filter (λ x, negb (x.2 =? "RefType")) kinds).*1 in
      let reftype_items := (List.filter (λ x, x.2 =? "RefType") kinds).*1 in
      fqns1 ← match entity_items with
              | [] => mret []
              | _ => _ ← run_write (query_entity spec_id entity_items);
                     mret (returned_fqns spec_id entity_items)
              end;
      fqns2 ← match reftype_items with
              | [] => mret []
              | _ => _ ← run_write (query_reftype spec_id reftype_items);
                     mret (returned_fqns spec_id reftype_items)
              end;
      mret (fqns1 ++ fqns2)
  | None => mret []
  end.

(** The block "Bulk create fields using UNWIND". *)
Record field_row := FieldRow {
  entity_fqn : string; field_name : json; field_type : json;
  field_required : json; field_description : json; field_default : json }.

Definition field_row_of (entity_fqn : string) (field_data : json) : result field_row :=
  match field_data with
  | JDict f =>
      Ok (FieldRow entity_fqn
            (dict_get_default "name" (JStr "") f)
            (dict_get_default "type" (JStr "string") f)
            (dict_get_default "required" (JBool false) f)
            (dict_get "description" f)
            (dict_get "default" f))
  | _ => Raise AttributeError
  end.

Definition field_rows_of (entity_fqns : list (string * string))
    (entity : string * json) : result (list field_row) :=
  let '(entity_name, entity_data) := entity in
  match fqns_get entity_name entity_fqns with
  | Some entity_fqn =>
      if entity_fqn =? "" then Ok []
      else
        has ← py_contains "properties" entity_data;
        if has : bool then
          properties ← py_getitem entity_data "properties";
          fields ← iterate properties;
          rmapM (field_row_of entity_fqn) fields
        else Ok []
  | None => Ok []
  end.

Definition field_fqn (r : field_row) : result string :=
  name ← as_str (field_name r); Ok (entity_fqn r +:+ "." +:+ name).

Definition field_props (r : field_row) : assigns :=
  [("name", field_name r); ("type", field_type r); ("required", field_required r);
   ("entityFqn", JStr (entity_fqn r)); ("description", field_description r);
   ("defaultValue", field_default r)].

Definition query_fields (rows : list field_row) : result (list clause) :=
  fqns ← rmapM field_fqn rows;
  let bound := zip rows fqns in
  Ok (((λ x, MergeNode "Field" "fqn" x.2) <$> bound) ++
      ((λ x, SetNode (Labelled "Field" "fqn" x.2) (field_props x.1)) <$> bound) ++
      ((λ x, MergeEdge (Keyed "fqn" (entity_fqn x.1)) "HAS_FIELD"
                       (Labelled "Field" "fqn" x.2)) <$> bound)).

Definition upsert_fields (data : dict) (entity_fqns : list (string * string)) : M unit :=
  match dict_lookup "entities" data with
  | Some entities =>
      ents ← lift (items_of entities);
      rows ← lift (rmapM (field_rows_of entity_fqns) ents);
      match mjoin rows with
      | [] => mret ()
      | fields_list => run_write (query_fields fields_list)
      end
  | None => mret ()
  end.

(** The block "Bulk create relationships using UNWIND". *)
Record rel_row := RelRow {
  from_fqn : string; to_fqn : string; rel_type : json;
  from_cardinality : json; to_cardinality : json; direction : json;
  role : json; name : json; relationship_type : json; order : json;
  is_containment : json; is_inheritance : json; is_dashed : json }.

(** [entity_fqns.get(v)] for any value [v]. *)
Definition fqns_get_value (v : json) (entity_fqns : list (string * string))
  : result (option string) :=
  match v with
  | JStr s => Ok (fqns_get s entity_fqns)
  | JList _ | JDict _ => Raise TypeError
  | _ => Ok None
  end.

Definition mk_rel_row (from_fqn to_fqn : string) (rel : dict) : rel_row :=
  RelRow from_fqn to_fqn
    (dict_get_default "type" (JStr "relates_to") rel)
    (py_or (dict_get "fromCardinality" rel) (dict_get "cardinality" rel))
    (py_or (dict_get "toCardinality" rel) (dict_get "cardinality" rel))
    (dict_get_default "direction" (JStr "out") rel)
    (dict_get "role" rel)
    (dict_get "name" rel)
    (dict_get "relationshipType" rel)
    (dict_get "order" rel)
    (dict_get_default "isContainment" (JBool false) rel)
    (dict_get_default "isInheritance" (JBool false) rel)
    (dict_get_default "isDashed" (JBool false) rel).

(** One turn of the loop over [data["relationships"]]: the row appended to
    [relationships_list], if any. *)
Definition rel_row_of (entity_fqns : list (string * string)) (rel : json)
  : result (option rel_row) :=
  match rel with
  | JDict r =>
      let from_entity := dict_get "from" r in
      let to_entity := dict_get "to" r in
      if truthy from_entity && truthy to_entity then
        from_fqn ← fqns_get_value from_entity entity_fqns;
        to_fqn ← fqns_get_value to_entity entity_fqns;
        match from_fqn, to_fqn with
        | Some f, Some t =>
            if negb (f =? "") && negb (t =? "") then Ok (Some (mk_rel_row f t r))
            else Ok None
        | _, _ => Ok None
        end
      else Ok None
  | _ => Raise AttributeError
  end.

Definition relationships_list (entity_fqns : list (string * string)) (rels : list json)
  : result (list rel_row) :=
  rows ← rmapM (rel_row_of entity_fqns) rels; Ok (omap id (rows : list (option rel_row))).

(** [CASE rel.direction WHEN ... END AS create_out / create_in] *)
Definition cy_eq (v : json) (s : string) : bool :=
  match v with JStr x => x =? s | _ => false end.

Definition create_out (direction : json) : bool :=
  if cy_eq direction "in" then false
  else if cy_eq direction "bidirectional" then true
  else true.

Definition create_in (direction : json) : bool :=
  if cy_eq direction "out" then false
  else if cy_eq direction "bidirectional" then true
  else false.

Definition rel_props (tag : string) (from_card to_card : json) (r : rel_row) : assigns :=
  [("type", rel_type r); ("direction", JStr tag);
   ("fromCardinality", from_card); ("toCardinality", to_card);
   ("role", role r); ("name", name r);
   ("relationshipType", relationship_type r); ("order", order r);
   ("isContainment", is_containment r); ("isInheritance", is_inheritance r);
   ("isDashed", is_dashed r)].

(** The first FOREACH, then the second, each over all rows. *)
Definition foreach_out (r : rel_row) : list clause :=
  if create_out (direction r) then
    [MergeEdge (Keyed "fqn" (from_fqn r)) "RELATES_TO" (Keyed "fqn" (to_fqn r));
     SetEdge (Keyed "fqn" (from_fqn r)) "RELATES_TO" (Keyed "fqn" (to_fqn r))
       (rel_props "out" (from_cardinality r) (to_cardinality r) r)]
  else [].

Definition foreach_in (r : rel_row) : list clause :=
  if create_in (direction r) then
    [MergeEdge (Keyed "fqn" (to_fqn r)) "RELATES_TO" (Keyed "fqn" (from_fqn r));
     SetEdge (Keyed "fqn" (to_fqn r)) "RELATES_TO" (Keyed "fqn" (from_fqn r))
       (rel_props "in" (to_cardinality r) (from_cardinality r) r)]
  else [].

Definition query_relationships (rows : list rel_row) : list clause :=
  (rows ≫= foreach_out) ++ (rows ≫= foreach_in).

Definition upsert_relationships (data : dict) (entity_fqns : list (string * string))
  : M unit :=
  match dict_lookup "relationships" data with
  | Some relationships =>
      rels ← lift (iterate relationships);
      rows ← lift (relationships_list entity_fqns rels);
      match rows with
      | [] => mret ()
      | _ => run_write (Ok (query_relationships rows))
      end
  | None => mret ()
  end.

(** The block "Link schema block to entities". *)
Definition query_link (spec_id diagram_id : string) : list clause :=
  [MergeEdge (Labelled "SchemaBlock" "diagramId" diagram_id) "CONTAINS_ENTITY"
             (Keyed "specId" spec_id)].

Definition link_containment (spec_id diagram_id : json) : M unit :=
  run_write (s ← as_str spec_id; d ← as_str diagram_id; Ok (query_link s d)).

(** [populate_neo4j] *)
Definition check_valid (data : dict) : M unit :=
  errors ← lift (validate_extracted_data data);
  match errors with
  | [] => mret ()
  | _ => raise (ValueError errors)
  end.

Definition write_all (ev : env) (data : dict)
    (create_constraints_flag create_indexes_flag : bool) : M unit :=
  _ ← when create_constraints_flag (emit create_stable_constraints);
  _ ← when create_indexes_flag (emit (create_stable_indexes (srv ev) true));
  ids ← create_schema_block ev data;
  entity_fqns ← upsert_entities data ids.1;
  _ ← upsert_fields data entity_fqns;
  _ ← upsert_relationships data entity_fqns;
  link_containment ids.1 ids.2.

Definition populate_neo4j (ev : env) (data : dict)
    (create_constraints_flag create_indexes_flag validate : bool) : M unit :=
  if negb (driver_installed ev) then raise ImportError
  else
    _ ← when validate (check_valid data);
    _ ← emit [Connected];
    finally (write_all ev data create_constraints_flag create_indexes_flag)
            (emit [Closed]).

(** ** Vocabulary of the proofs and of the claims *)

(** The last value a list of assignments gives to [k]. *)
Definition last_assign (k : string) (a : assigns) : option json :=
  foldl (λ acc kv, if decide (kv.1 = k) then Some kv.2 else acc) None a.

(** The properties MERGE patterns of the module key on: no SET clause of
    the module assigns them. *)
Definition identity_key (k : string) : bool := (k =? "fqn") || (k =? "id").

(** Assignments that leave the identity keys alone. *)
Definition assigns_ok (a : assigns) : Prop :=
  Forall (λ kv : string * json, identity_key kv.1 = false) a.

(** What a sequence of clauses does to one node, and to one edge, once the
    node list is fixed. *)
Definition node_run (cs : list clause) (n : node) : node :=
  foldl (λ n c, node_step c n) n cs.
Definition edge_run (ns : list node) (cs : list clause) (e : edge) : edge :=
  foldl (λ e c, edge_step ns c e) e cs.

(** A pattern, or a clause, whose bindings no SET of the module can change. *)
Definition stable_pat (p : pattern) : bool := identity_key (pat_key p).

Definition stable (c : clause) : Prop :=
  match c with
  | MergeNode _ k _ => identity_key k = true
  | SetNode p a => stable_pat p = true ∧ assigns_ok a
  | MergeEdge pa _ pb | SetEdge pa _ pb _ => stable_pat pa = true ∧ stable_pat pb = true
  end.

(** Clauses on relationships. *)
Definition is_edge_clause (c : clause) : bool :=
  match c with MergeEdge _ _ _ | SetEdge _ _ _ _ => true | _ => false end.

(** A clause in its place: a node is merged before any edge clause, and a
    SET follows the MERGE of what it sets. *)
Definition clause_ok (seen : list clause) (c : clause) : Prop :=
  stable c ∧
  match c with
  | MergeNode _ _ _ => Forall (λ c', is_edge_clause c' = false) seen
  | SetNode p _ => ∃ l k v, p = Labelled l k v ∧ MergeNode l k v ∈ seen
  | MergeEdge _ _ _ => True
  | SetEdge pa ty pb _ => MergeEdge pa ty pb ∈ seen
  end.

Fixpoint clauses_ok (seen cs : list clause) : Prop :=
  match cs with
  | [] => True
  | c :: cs' => clause_ok seen c ∧ clauses_ok (seen ++ [c]) cs'
  end.

(** Every SET of [P] has its MERGE in [P]. *)
Definition closed (P : list clause) : Prop :=
  (∀ p a, SetNode p a ∈ P → ∃ l k v, p = Labelled l k v ∧ MergeNode l k v ∈ P) ∧
  (∀ pa ty pb a, SetEdge pa ty pb a ∈ P → MergeEdge pa ty pb ∈ P).

(** Two nodes no stable pattern tells apart. *)
Definition same_identity (n n' : node) : Prop :=
  n_labels n = n_labels n' ∧
  ∀ k, identity_key k = true → n_props n !! k = n_props n' !! k.

(** The store is saturated for [P]: what [P] merges is there, and running
    the SETs of [P] changes no node and no edge. *)
Record inv (P : list clause) (g : graph) : Prop := Inv {
  inv_node : ∀ l k v, MergeNode l k v ∈ P →
     existsb (matches (Labelled l k v)) (nodes g) = true;
  inv_edge : ∀ pa ty pb, MergeEdge pa ty pb ∈ P → ∀ i j,
     matches_at pa (nodes g) i = true → matches_at pb (nodes g) j = true →
     existsb (joins i ty j) (edges g) = true;
  inv_nodes : Forall (λ n, node_run P n = n) (nodes g);
  inv_edges : Forall (λ e, edge_run (nodes g) P e = e) (edges g) }.

(** All the assignments [P] makes to a node, and to an edge, in order. *)
Definition node_assigns (P : list clause) (n : node) : assigns :=
  P ≫= λ c, match c with SetNode p a => if matches p n then a else [] | _ => [] end.
Definition edge_assigns (ns : list node) (P : list clause) (e : edge) : assigns :=
  P ≫= λ c, match c with
            | SetEdge pa ty pb a => if edge_bound pa ty pb ns e then a else []
            | _ => []
            end.

(** Two node lists that bind the same positions for stable patterns. *)
Definition agree ns ns' : Prop :=
  ∀ p i, stable_pat p = true → matches_at p ns' i = matches_at p ns i.



(** Clauses that can follow any sequence. *)
Definition edge_phase (cs : list clause) : Prop := ∀ P, clauses_ok P cs.


(** The clauses a run with identities [s] and [d] can send. *)
Definition emitted (s d : string) (c : clause) : Prop :=
  match c with
  | MergeNode l k v =>
      (l = "SchemaBlock" ∧ k = "id" ∧ v = d) ∨
      ((l = "Entity" ∨ l = "RefType" ∨ l = "Field") ∧ k = "fqn")
  | SetNode p a =>
      (p = schema_block_pattern d ∧ ∃ t v ar x,
         a = [("specId", JStr s); ("diagramId", JStr d); ("title", t);
              ("version", v); ("artifact", ar); ("extractedAt", x)]) ∨
      (∃ l f nm label, (l = "Entity" ∨ l = "RefType") ∧ p = Labelled l "fqn" f ∧
         a = [("name", nm); ("label", label); ("specId", JStr s); ("kind", JStr l)]) ∨
      (∃ f r, p = Labelled "Field" "fqn" f ∧ a = field_props r)
  | MergeEdge pa ty pb =>
      (ty = "HAS_FIELD" ∧ ∃ f, pb = Labelled "Field" "fqn" f) ∨
      ty = "RELATES_TO" ∨
      (ty = "CONTAINS_ENTITY" ∧ pa = Labelled "SchemaBlock" "diagramId" d ∧
       pb = Keyed "specId" s)
  | SetEdge _ ty _ _ => ty = "RELATES_TO"
  end.




(** Whatever its outcome, [m] has sent clauses of the run to the store and
    added events to the trace. *)
Definition sends {A} (s d : string) (m : M A) : Prop :=
  ∀ w w' r, m w = (w', r) →
    ∃ evs cs, Forall (emitted s d) cs ∧
              w' = World (exec cs (w_graph w)) (w_trace w ++ evs).

(** The RELATES_TO edges of a store, and the source, type and target of all
    its edges. *)
Definition relates (g : graph) : list edge :=
  List.filter (λ e, e_type e =? "RELATES_TO") (edges g).

Definition skeleton (g : graph) : list (nat * string * nat) :=
  (λ e, (e_src e, e_type e, e_dst e)) <$> edges g.

(** A server recent enough, a fixed clock, an empty store. *)
Definition ev0 : env := Env true (Server (Some (JStr "5.12.0"))) "2024-01-01T00:00:00".
Definition w0 : world := World empty_graph [].

(** Two entities and one relationship between them with the given
    direction. *)
Definition doc_direction (dir : string) : dict :=
  [("entities", JDict [("A", JDict []); ("B", JDict [])]);
   ("relationships", JList [JDict [("from", JStr "A"); ("to", JStr "B");
       ("fromCardinality", JStr "1"); ("toCardinality", JStr "0..*");
       ("direction", JStr dir)]]);
   ("meta", JDict [("source", JStr "tmf622/page1.png");
                   ("extracted_at", JStr "2024-01-01T00:00:00Z")])].

(** The RELATES_TO edges of the store after a run on the empty store: source,
    target, direction tag and the two cardinalities. *)
Definition relations_after (data : dict)
  : result (list (nat * nat * json * json * json)) :=
  let '(w, r) := populate_neo4j ev0 data true true true w0 in
  _ ← r;
  Ok ((λ e, (e_src e, e_dst e, default JNull (e_props e !! "direction"),
             default JNull (e_props e !! "fromCardinality"),
             default JNull (e_props e !! "toCardinality"))) <$> relates (w_graph w)).


(** A document with defects: an unknown endpoint, a cardinality and a
    direction outside their vocabularies. *)
Definition doc_defects : dict :=
  [("entities", JDict [("A", JDict [])]);
   ("relationships", JList [JDict [("from", JStr "A"); ("to", JStr "B");
       ("cardinality", JStr "many"); ("direction", JStr "sideways")]])].

(** In the spec's words, the FQN an endpoint resolves to: [v] is a short
    name, not empty, that the entity map sends to an FQN. *)
Definition endpoint_fqn (entity_fqns : list (string * string)) (v : json) : option string :=
  match v with
  | JStr short_name =>
      if short_name =? "" then None
      else fqn ← fqns_get short_name entity_fqns; if fqn =? "" then None else Some fqn
  | _ => None
  end.

(** The row of a relationship whose two endpoints resolve. *)
Definition resolved_row (entity_fqns : list (string * string)) (rel : json) : option rel_row :=
  match rel with
  | JDict r =>
      f ← endpoint_fqn entity_fqns (dict_get "from" r);
      t ← endpoint_fqn entity_fqns (dict_get "to" r);
      Some (mk_rel_row f t r)
  | _ => None
  end.

(** A relationship is a mapping whose [from] and [to], when present, are
    not arrays or objects. *)
Definition scalar (v : json) : Prop :=
  match v with JList _ | JDict _ => False | _ => True end.
Definition relationship_shaped (rel : json) : Prop :=
  match rel with
  | JDict r => scalar (dict_get "from" r) ∧ scalar (dict_get "to" r)
  | _ => False
  end.

(** An entity whose short name is the empty string, and a relationship from it. *)
Definition doc_empty_name : dict :=
  [("entities", JDict [("", JDict []); ("A", JDict [])]);
   ("relationships", JList [JDict [("from", JStr ""); ("to", JStr "A")]]);
   ("meta", JDict [("source", JStr "tmf622/page1.png");
                   ("extracted_at", JStr "2024-01-01T00:00:00Z")])].

(** The store invariant of the claim: the [kind] of a node is absent,
    ["Entity"] or ["RefType"], and its labels are among the four labels of
    the schema. *)
Definition kind_ok (n : node) : Prop :=
  (n_props n !! "kind" = None ∨ n_props n !! "kind" = Some (JStr "Entity") ∨
   n_props n !! "kind" = Some (JStr "RefType")) ∧
  Forall (λ l, l = "SchemaBlock" ∨ l = "Entity" ∨ l = "RefType" ∨ l = "Field") (n_labels n).
Definition kinds_ok (g : graph) : Prop := Forall kind_ok (nodes g).

(** The name test of [determine_entity_kind]. *)
Definition has_suffix (entity_name : string) : bool :=
  endswith entity_name "Ref" || endswith entity_name "Reference".

(** Two entities that declare a kind outside [ALLOWED_KINDS]. *)
Definition doc_hacked : dict :=
  [("entities", JDict [("Order", JDict [("kind", JStr "Hacked")]);
                       ("OrderRef", JDict [("kind", JStr "Hacked")])]);
   ("relationships", JList [])].






(** Two relationship definitions between the same endpoints that differ in
    type. *)
Definition doc_two_types : dict :=
  [("entities", JDict [("A", JDict []); ("B", JDict [])]);
   ("relationships", JList
      [JDict [("from", JStr "A"); ("to", JStr "B"); ("type", JStr "has")];
       JDict [("from", JStr "A"); ("to", JStr "B"); ("type", JStr "uses")]]);
   ("meta", JDict [("source", JStr "tmf622/page1.png")])].

(** The RELATES_TO edges after a run on the empty store, with their [type]. *)
Definition typed_relations_after (data : dict) : result (list (nat * nat * json)) :=
  let '(w, r) := populate_neo4j ev0 data true true true w0 in
  _ ← r;
  Ok ((λ e, (e_src e, e_dst e, default JNull (e_props e !! "type")))
        <$> relates (w_graph w)).

(** A row that materializes the forward edge only. *)
Definition out_only (r : rel_row) : Prop :=
  create_out (direction r) = true ∧ create_in (direction r) = false.

(** * Proofs *)

Section props.
Implicit Types (m : gmap string json) (a b : assigns) (k : string).

Lemma lookup_set_prop m kv k :
  set_prop m kv !! k = if decide (kv.1 = k) then stored kv.2 else m !! k.
Proof.
  unfold set_prop. rewrite lookup_partial_alter. by case_decide.
Qed.

Lemma lookup_set_props_gen a m k (acc : option json) :
  foldl set_prop m a !! k =
  match foldl (λ acc kv, if decide (kv.1 = k) then Some kv.2 else acc) None a with
  | Some v => stored v
  | None => m !! k
  end.
Proof.
  revert m. induction a as [|kv a IH] using rev_ind; intros m; [done|].
  rewrite !foldl_app. simpl. rewrite lookup_set_prop.
  case_decide; [done|]. apply IH.
Qed.

Lemma lookup_set_props a m k :
  set_props a m !! k =
  match last_assign k a with Some v => stored v | None => m !! k end.
Proof. apply (lookup_set_props_gen a m k None). Qed.

Lemma set_props_app a b m : set_props (a ++ b) m = set_props b (set_props a m).
Proof. apply foldl_app. Qed.

Lemma set_props_absorb a b m :
  set_props a (set_props b (set_props a m)) = set_props a (set_props b m).
Proof.
  apply map_eq; intros k. rewrite !lookup_set_props.
  destruct (last_assign k a); [done|]. by destruct (last_assign k b).
Qed.

Lemma last_assign_ok a k : assigns_ok a → identity_key k = true → last_assign k a = None.
Proof.
  intros Ha Hk. unfold last_assign.
  induction a as [|kv a IH] using rev_ind; [done|].
  apply Forall_app in Ha as [Ha Hkv]. inversion_clear Hkv as [|?? Hkv' _].
  rewrite foldl_app. simpl. case_decide as Heq; [|auto].
  rewrite Heq in Hkv'. congruence.
Qed.

Lemma has_prop_set_props a m k v :
  assigns_ok a → identity_key k = true →
  has_prop k v (set_props a m) = has_prop k v m.
Proof.
  intros Ha Hk. unfold has_prop. rewrite lookup_set_props, last_assign_ok; done.
Qed.
End props.

Section clauses.
Implicit Types (n : node) (e : edge) (p : pattern) (c : clause)
  (P cs : list clause) (ns : list node) (es : list edge) (g : graph).

Lemma same_identity_refl n : same_identity n n.
Proof. done. Qed.

Lemma same_identity_set_node a n : assigns_ok a → same_identity n (set_node a n).
Proof.
  intros Ha. split; [done|]. intros k Hk. simpl.
  by rewrite lookup_set_props, last_assign_ok.
Qed.

Lemma matches_same p n n' :
  stable_pat p = true → same_identity n n' → matches p n = matches p n'.
Proof.
  intros Hp [Hl Hk]. unfold stable_pat in Hp.
  destruct p as [l k v|k v]; simpl in *; unfold has_prop;
    rewrite ?Hl, (Hk k Hp); done.
Qed.

Lemma node_step_same c n : stable c → same_identity n (node_step c n).
Proof.
  destruct c as [| p a | |]; simpl; try done.
  intros [_ Ha]. destruct (matches p n); [by apply same_identity_set_node|done].
Qed.

Lemma matches_node_step c p n :
  stable c → stable_pat p = true → matches p (node_step c n) = matches p n.
Proof. intros Hc Hp. symmetry. by apply matches_same, node_step_same. Qed.

Lemma matches_at_map c p ns i :
  stable c → stable_pat p = true →
  matches_at p (map (node_step c) ns) i = matches_at p ns i.
Proof.
  intros Hc Hp. unfold matches_at. rewrite list_lookup_fmap.
  destruct (ns !! i); simpl; [by apply matches_node_step|done].
Qed.

Lemma existsb_matches_map c p ns :
  stable c → stable_pat p = true →
  existsb (matches p) (map (node_step c) ns) = existsb (matches p) ns.
Proof.
  intros Hc Hp. induction ns as [|n ns IH]; [done|]. simpl.
  by rewrite IH, matches_node_step.
Qed.

(** *** Runs of SET clauses on one node or one edge *)

Lemma node_run_app P cs n : node_run (P ++ cs) n = node_run cs (node_run P n).
Proof. apply foldl_app. Qed.
Lemma edge_run_app ns P cs e : edge_run ns (P ++ cs) e = edge_run ns cs (edge_run ns P e).
Proof. apply foldl_app. Qed.

Lemma set_node_nil n : set_node [] n = n.
Proof. by destruct n. Qed.
Lemma set_edge_nil e : set_edge [] e = e.
Proof. by destruct e. Qed.
Lemma set_node_app a b n : set_node (a ++ b) n = set_node b (set_node a n).
Proof. unfold set_node. simpl. by rewrite set_props_app. Qed.
Lemma set_edge_app a b e : set_edge (a ++ b) e = set_edge b (set_edge a e).
Proof. unfold set_edge. simpl. by rewrite set_props_app. Qed.

Lemma node_assigns_same P n n' :
  Forall stable P → same_identity n n' → node_assigns P n = node_assigns P n'.
Proof.
  intros HP Hn. unfold node_assigns.
  induction HP as [|c P Hc HP IH]; [done|].
  rewrite !bind_cons, IH. f_equal.
  destruct c as [|p a| |]; try done. destruct Hc as [Hp _].
  by rewrite (matches_same p n n').
Qed.

Lemma node_run_flat P n :
  Forall stable P → node_run P n = set_node (node_assigns P n) n.
Proof.
  intros HP. revert n. induction HP as [|c P Hc HP IH]; intros n.
  { by rewrite set_node_nil. }
  change (node_run (c :: P) n) with (node_run P (node_step c n)).
  rewrite IH. unfold node_assigns at 2. rewrite bind_cons.
  rewrite <-(node_assigns_same P n (node_step c n)) by auto using node_step_same.
  fold (node_assigns P n). rewrite set_node_app. f_equal.
  destruct c as [|p a| |]; simpl; rewrite ?set_node_nil; try done.
  destruct (matches p n); [done|by rewrite set_node_nil].
Qed.

Lemma node_absorb P c n :
  Forall stable P → stable c → node_run P n = n →
  node_step c (node_run P (node_step c n)) = node_step c n.
Proof.
  intros HP Hc Hn. destruct c as [|p a| |]; simpl; try done.
  destruct Hc as [Hp Ha].
  destruct (matches p n) eqn:Hm; [|by rewrite Hn, Hm].
  rewrite node_run_flat by done.
  rewrite <-(node_assigns_same P n (set_node a n))
    by auto using same_identity_set_node.
  assert (matches p (set_node (node_assigns P n) (set_node a n)) = true) as ->.
  { rewrite <-Hm. symmetry. apply matches_same; [done|]. split; [done|].
    intros k Hk. simpl. rewrite !lookup_set_props.
    rewrite (last_assign_ok a) by done.
    rewrite node_run_flat in Hn by done.
    apply (f_equal (λ x, n_props x !! k)) in Hn. simpl in Hn.
    rewrite lookup_set_props in Hn. symmetry. exact Hn. }
  unfold set_node. simpl. f_equal. rewrite set_props_absorb.
  rewrite node_run_flat in Hn by done.
  apply (f_equal n_props) in Hn. simpl in Hn. by rewrite Hn.
Qed.
End clauses.

Section edges.
Implicit Types (n : node) (e : edge) (p : pattern) (c : clause)
  (P cs : list clause) (ns : list node) (es : list edge) (g : graph).

Lemma edge_bound_set pa ty pb ns a e :
  edge_bound pa ty pb ns (set_edge a e) = edge_bound pa ty pb ns e.
Proof. done. Qed.

Lemma edge_bound_step pa ty pb ns c e :
  edge_bound pa ty pb ns (edge_step ns c e) = edge_bound pa ty pb ns e.
Proof.
  destruct c as [| | |pa' ty' pb' a]; simpl; try done.
  by destruct (edge_bound pa' ty' pb' ns e).
Qed.

Lemma joins_step i ty j ns c e : joins i ty j (edge_step ns c e) = joins i ty j e.
Proof.
  destruct c as [| | |pa' ty' pb' a]; simpl; try done.
  by destruct (edge_bound pa' ty' pb' ns e).
Qed.

Lemma edge_assigns_step ns P c e :
  edge_assigns ns P (edge_step ns c e) = edge_assigns ns P e.
Proof.
  unfold edge_assigns. induction P as [|d P IH]; [done|].
  rewrite !bind_cons, IH. f_equal.
  destruct d as [| | |pa ty pb a]; try done. by rewrite edge_bound_step.
Qed.

Lemma edge_assigns_set ns P a e :
  edge_assigns ns P (set_edge a e) = edge_assigns ns P e.
Proof.
  unfold edge_assigns. induction P as [|d P IH]; [done|].
  rewrite !bind_cons, IH. done.
Qed.

Lemma edge_run_flat ns P e : edge_run ns P e = set_edge (edge_assigns ns P e) e.
Proof.
  revert e. induction P as [|c P IH]; intros e.
  { by rewrite set_edge_nil. }
  change (edge_run ns (c :: P) e) with (edge_run ns P (edge_step ns c e)).
  rewrite IH, edge_assigns_step. unfold edge_assigns at 2. rewrite bind_cons.
  fold (edge_assigns ns P e). rewrite set_edge_app. f_equal.
  destruct c as [| | |pa ty pb a]; simpl; rewrite ?set_edge_nil; try done.
  destruct (edge_bound pa ty pb ns e); [done|by rewrite set_edge_nil].
Qed.

Lemma edge_absorb ns P c e :
  edge_run ns P e = e →
  edge_step ns c (edge_run ns P (edge_step ns c e)) = edge_step ns c e.
Proof.
  intros He. destruct c as [| | |pa ty pb a]; simpl; try done.
  destruct (edge_bound pa ty pb ns e) eqn:Hb; [|by rewrite He, Hb].
  rewrite edge_run_flat, edge_assigns_set, !edge_bound_set, Hb.
  rewrite edge_run_flat in He. apply (f_equal e_props) in He. simpl in He.
  unfold set_edge. simpl. f_equal. by rewrite set_props_absorb, He.
Qed.

Lemma agree_map c ns : stable c → agree ns (map (node_step c) ns).
Proof. intros Hc p i Hp. by apply matches_at_map. Qed.

Lemma edge_step_agree ns ns' c e :
  agree ns ns' → stable c → edge_step ns' c e = edge_step ns c e.
Proof.
  intros Hag Hc. destruct c as [| | |pa ty pb a]; simpl; try done.
  destruct Hc as [Ha Hb]. unfold edge_bound. by rewrite !Hag.
Qed.

Lemma edge_run_agree ns ns' P e :
  agree ns ns' → Forall stable P → edge_run ns' P e = edge_run ns P e.
Proof.
  intros Hag HP. revert e. induction HP as [|c P Hc HP IH]; intros e; [done|].
  change (edge_run ns' P (edge_step ns' c e) = edge_run ns P (edge_step ns c e)).
  by rewrite IH, (edge_step_agree ns ns').
Qed.

Lemma node_run_id P n :
  (∀ p a, SetNode p a ∈ P → matches p n = false) → node_run P n = n.
Proof.
  induction P as [|c P IH] using rev_ind; intros H; [done|].
  rewrite node_run_app, IH.
  - destruct c as [|p a| |]; simpl; try done.
    rewrite (H p a); [done|]. apply elem_of_app. right. by apply list_elem_of_singleton.
  - intros p a Hin. apply (H p a). apply elem_of_app. by left.
Qed.

Lemma edge_run_id ns P e :
  (∀ pa ty pb a, SetEdge pa ty pb a ∈ P → edge_bound pa ty pb ns e = false) →
  edge_run ns P e = e.
Proof.
  induction P as [|c P IH] using rev_ind; intros H; [done|].
  rewrite edge_run_app, IH.
  - destruct c as [| | |pa ty pb a]; simpl; try done.
    rewrite (H pa ty pb a); [done|]. apply elem_of_app. right.
    by apply list_elem_of_singleton.
  - intros pa ty pb a Hin. apply (H pa ty pb a). apply elem_of_app. by left.
Qed.

(** *** MERGE of edges *)

Lemma existsb_joins_app i ty j es es' :
  existsb (joins i ty j) es = true → existsb (joins i ty j) (es ++ es') = true.
Proof. intros H. rewrite existsb_app, H. done. Qed.

Lemma merge_edge_mono i ty j ty' es ij :
  existsb (joins i ty j) es = true →
  existsb (joins i ty j) (merge_edge ty' es ij) = true.
Proof.
  intros H. unfold merge_edge.
  destruct (existsb (joins ij.1 ty' ij.2) es); [done|by apply existsb_joins_app].
Qed.

Lemma foldl_merge_edge_mono i ty j ty' l es :
  existsb (joins i ty j) es = true →
  existsb (joins i ty j) (foldl (merge_edge ty') es l) = true.
Proof.
  revert es. induction l as [|ij l IH]; intros es H; [done|].
  simpl. by apply IH, merge_edge_mono.
Qed.

Lemma joins_new i ty j : joins i ty j (Edge i ty j ∅) = true.
Proof.
  unfold joins. simpl. rewrite !Nat.eqb_refl, String.eqb_refl. done.
Qed.

Lemma merge_edge_covers ty es ij :
  existsb (joins ij.1 ty ij.2) (merge_edge ty es ij) = true.
Proof.
  unfold merge_edge. destruct (existsb (joins ij.1 ty ij.2) es) eqn:E; [done|].
  rewrite existsb_app. simpl. by rewrite joins_new, orb_true_r.
Qed.

Lemma foldl_merge_edge_covers ty l es i j :
  (i, j) ∈ l → existsb (joins i ty j) (foldl (merge_edge ty) es l) = true.
Proof.
  revert es. induction l as [|ij l IH]; intros es Hin; [by apply elem_of_nil in Hin|].
  apply elem_of_cons in Hin as [<-|Hin]; simpl.
  - apply foldl_merge_edge_mono. apply (merge_edge_covers ty es (i, j)).
  - by apply IH.
Qed.

Lemma foldl_merge_edge_id ty l es :
  (∀ i j, (i, j) ∈ l → existsb (joins i ty j) es = true) →
  foldl (merge_edge ty) es l = es.
Proof.
  induction l as [|[i j] l IH]; intros H; [done|]. simpl.
  unfold merge_edge at 2. simpl. rewrite (H i j) by (apply elem_of_cons; by left).
  apply IH. intros i' j' Hin. apply H. apply elem_of_cons. by right.
Qed.

(** What a MERGE adds: edges without properties, behind the old ones, each
    for a pair that had no edge of the type. *)
Lemma foldl_merge_edge_new ty l es :
  ∃ new, foldl (merge_edge ty) es l = es ++ new ∧
    Forall (λ e, ∃ i j, e = Edge i ty j ∅ ∧ (i, j) ∈ l ∧
                        existsb (joins i ty j) es = false) new.
Proof.
  revert es. induction l as [|[i j] l IH]; intros es.
  { exists []. by rewrite app_nil_r. }
  simpl. unfold merge_edge at 2. simpl.
  destruct (existsb (joins i ty j) es) eqn:E.
  - destruct (IH es) as (new & -> & Hnew). exists new. split; [done|].
    eapply Forall_impl; [exact Hnew|]. intros e (i' & j' & -> & Hin & Hno).
    exists i', j'. split_and!; [done| |done]. apply elem_of_cons. by right.
  - destruct (IH (es ++ [Edge i ty j ∅])) as (new & -> & Hnew).
    exists (Edge i ty j ∅ :: new). split; [by rewrite <-app_assoc|].
    constructor.
    + exists i, j. split_and!; [done| |done]. apply elem_of_cons. by left.
    + eapply Forall_impl; [exact Hnew|]. intros e (i' & j' & -> & Hin & Hno).
      exists i', j'. split_and!; [done| |].
      * apply elem_of_cons. by right.
      * rewrite existsb_app in Hno. by apply orb_false_iff in Hno as [? _].
Qed.

Lemma elem_of_matching p ns i : i ∈ matching p ns ↔ matches_at p ns i = true.
Proof.
  unfold matching. rewrite list_elem_of_In, filter_In, in_seq. split; [tauto|].
  intros H. split; [|done]. unfold matches_at in H.
  destruct (ns !! i) eqn:E; [|done]. apply lookup_lt_Some in E. lia.
Qed.

Lemma elem_of_pairs pa pb ns i j :
  (i, j) ∈ pairs pa pb ns ↔ matches_at pa ns i = true ∧ matches_at pb ns j = true.
Proof.
  unfold pairs. rewrite list_elem_of_bind. split.
  - intros (i' & Hj & Hi). apply list_elem_of_bind in Hj as (j' & Hij & Hj).
    apply list_elem_of_singleton in Hij. injection Hij as -> ->.
    by rewrite <-!elem_of_matching.
  - intros [Hi Hj]. exists i. rewrite elem_of_matching. split; [|done].
    apply list_elem_of_bind. exists j. rewrite elem_of_matching.
    split; [by apply list_elem_of_singleton|done].
Qed.
End edges.

Section invariant.
Implicit Types (n : node) (e : edge) (p : pattern) (c : clause)
  (P cs : list clause) (ns : list node) (es : list edge) (g : graph).

Lemma elem_of_snoc {A} (x y : A) (l : list A) : x ∈ l ++ [y] ↔ x ∈ l ∨ x = y.
Proof. by rewrite elem_of_app, list_elem_of_singleton. Qed.

Lemma node_run_snoc P c n : node_run (P ++ [c]) n = node_step c (node_run P n).
Proof. by rewrite node_run_app. Qed.
Lemma edge_run_snoc ns P c e :
  edge_run ns (P ++ [c]) e = edge_step ns c (edge_run ns P e).
Proof. by rewrite edge_run_app. Qed.

Lemma matches_new l k v p :
  matches p (Node [l] {[k := JStr v]}) = true →
  ∀ l' k' v', p = Labelled l' k' v' → l' = l ∧ k' = k ∧ v' = v.
Proof.
  intros Hm l' k' v' ->. simpl in Hm. apply andb_true_iff in Hm as [Hl Hp].
  rewrite orb_false_r in Hl. apply String.eqb_eq in Hl.
  unfold has_prop in Hp. destruct (decide (k = k')) as [->|Hne].
  - rewrite lookup_singleton_eq in Hp. apply String.eqb_eq in Hp. done.
  - by rewrite lookup_singleton_ne in Hp.
Qed.

Lemma matches_new_self l k v : matches (Labelled l k v) (Node [l] {[k := JStr v]}) = true.
Proof.
  simpl. unfold has_prop. rewrite lookup_singleton_eq, !String.eqb_refl. done.
Qed.

Lemma no_edge_clause P c : Forall (λ c', is_edge_clause c' = false) P → c ∈ P →
  is_edge_clause c = false.
Proof. intros H Hin. by apply (proj1 (Forall_forall _ _) H). Qed.

Lemma inv_merge_node P g l k v :
  inv P g → closed P → clause_ok P (MergeNode l k v) →
  inv (P ++ [MergeNode l k v]) (exec1 g (MergeNode l k v)).
Proof.
  intros [Hn He Hns Hes] [Hcn Hce] [Hst Hno]. simpl.
  destruct (existsb (matches (Labelled l k v)) (nodes g)) eqn:Hex.
  - split.
    + intros l' k' v' [Hin|Heq]%elem_of_snoc; [by apply Hn|]. by injection Heq as -> -> ->.
    + intros pa ty pb [Hin|Heq]%elem_of_snoc; [by apply He|done].
    + eapply Forall_impl; [exact Hns|]. intros n Hrun. by rewrite node_run_snoc, Hrun.
    + eapply Forall_impl; [exact Hes|]. intros e Hrun. by rewrite edge_run_snoc, Hrun.
  - split; simpl.
    + intros l' k' v' [Hin|Heq]%elem_of_snoc.
      * rewrite existsb_app, (Hn l' k' v' Hin). done.
      * injection Heq as -> -> ->. rewrite existsb_app. cbn [existsb].
        by rewrite matches_new_self, !orb_true_r.
    + intros pa ty pb [Hin|Heq]%elem_of_snoc; [|done].
      by apply (no_edge_clause P _ Hno) in Hin.
    + apply Forall_app. split.
      * eapply Forall_impl; [exact Hns|]. intros n Hrun. by rewrite node_run_snoc, Hrun.
      * constructor; [|done]. rewrite node_run_snoc. simpl. apply node_run_id.
        intros p a Hin. destruct (matches p _) eqn:Hm; [|done].
        destruct (Hcn p a Hin) as (l' & k' & v' & -> & Hin').
        destruct (matches_new l k v _ Hm l' k' v' eq_refl) as (-> & -> & ->).
        rewrite (Hn l k v Hin') in Hex. done.
    + eapply Forall_impl; [exact Hes|]. intros e _. apply edge_run_id.
      intros pa ty pb a [Hin|Heq]%elem_of_snoc; [|done].
      by apply (no_edge_clause P _ Hno) in Hin.
Qed.

Lemma inv_set_node P g p a :
  inv P g → Forall stable P → clause_ok P (SetNode p a) →
  inv (P ++ [SetNode p a]) (exec1 g (SetNode p a)).
Proof.
  intros [Hn He Hns Hes] HP [Hst _].
  assert (∀ c, c ∈ P → stable c) as HPs by (by apply Forall_forall).
  split; simpl.
  - intros l' k' v' [Hin|Heq]%elem_of_snoc; [|done].
    rewrite (existsb_matches_map (SetNode p a)); [by apply Hn|done|].
    apply (HPs _ Hin).
  - intros pa ty pb [Hin|Heq]%elem_of_snoc; [|done]. intros i j.
    destruct (HPs _ Hin) as [Ha Hb].
    rewrite !(matches_at_map (SetNode p a)) by done. by apply He.
  - apply Forall_fmap. eapply Forall_impl; [exact Hns|]. intros n Hrun. simpl.
    rewrite node_run_snoc. by apply (node_absorb P (SetNode p a)).
  - eapply Forall_impl; [exact Hes|]. intros e Hrun. simpl.
    rewrite edge_run_snoc. simpl.
    rewrite (edge_run_agree (nodes g)); [done| |done].
    by apply (agree_map (SetNode p a)).
Qed.

Lemma inv_merge_edge_gen P g pa ty pb :
  inv P g →
  (∀ pa' pb' a, SetEdge pa' ty pb' a ∈ P → MergeEdge pa' ty pb' ∈ P) →
  inv (P ++ [MergeEdge pa ty pb]) (exec1 g (MergeEdge pa ty pb)).
Proof.
  intros [Hn He Hns Hes] Hce.
  destruct (foldl_merge_edge_new ty (pairs pa pb (nodes g)) (edges g))
    as (new & Hfold & Hnew).
  split; simpl.
  - intros l' k' v' [Hin|Heq]%elem_of_snoc; [by apply Hn|done].
  - intros pa' ty' pb' [Hin|Heq]%elem_of_snoc i j Hi Hj.
    + apply foldl_merge_edge_mono. by apply (He pa' ty' pb').
    + injection Heq as -> -> ->. apply foldl_merge_edge_covers.
      by apply elem_of_pairs.
  - eapply Forall_impl; [exact Hns|]. intros n Hrun. by rewrite node_run_snoc, Hrun.
  - rewrite Hfold. apply Forall_app. split.
    + eapply Forall_impl; [exact Hes|]. intros e Hrun. by rewrite edge_run_snoc, Hrun.
    + eapply Forall_impl; [exact Hnew|]. intros e (i & j & -> & Hin & Hno).
      rewrite edge_run_snoc. simpl. apply edge_run_id.
      intros pa' ty' pb' a Hin'. destruct (edge_bound _ _ _ _ _) eqn:Hb; [|done].
      unfold edge_bound in Hb. simpl in Hb.
      apply andb_true_iff in Hb as [[Hty Hi]%andb_true_iff Hj].
      apply String.eqb_eq in Hty as <-.
      rewrite (He pa' ty pb' (Hce _ _ _ Hin') i j Hi Hj) in Hno. done.
Qed.

Lemma existsb_joins_map i ty j ns c es :
  existsb (joins i ty j) (map (edge_step ns c) es) = existsb (joins i ty j) es.
Proof.
  induction es as [|e es IH]; [done|]. simpl. by rewrite IH, joins_step.
Qed.

Lemma inv_set_edge P g pa ty pb a :
  inv P g → inv (P ++ [SetEdge pa ty pb a]) (exec1 g (SetEdge pa ty pb a)).
Proof.
  intros [Hn He Hns Hes]. split; simpl.
  - intros l' k' v' [Hin|Heq]%elem_of_snoc; [by apply Hn|done].
  - intros pa' ty' pb' [Hin|Heq]%elem_of_snoc i j Hi Hj; [|done].
    rewrite existsb_joins_map. by apply (He pa' ty' pb').
  - eapply Forall_impl; [exact Hns|]. intros n Hrun. by rewrite node_run_snoc, Hrun.
  - apply Forall_fmap. eapply Forall_impl; [exact Hes|]. intros e Hrun. simpl.
    rewrite edge_run_snoc. by apply (edge_absorb (nodes g) P (SetEdge pa ty pb a)).
Qed.

Lemma inv_step P g c :
  inv P g → Forall stable P → closed P → clause_ok P c →
  inv (P ++ [c]) (exec1 g c).
Proof.
  intros Hinv HP Hcl Hok. destruct c as [l k v|p a|pa ty pb|pa ty pb a].
  - by apply inv_merge_node.
  - by apply inv_set_node.
  - apply inv_merge_edge_gen; [done|]. intros. by eapply (proj2 Hcl).
  - by apply inv_set_edge.
Qed.

Lemma closed_snoc P c : closed P → clause_ok P c → closed (P ++ [c]).
Proof.
  intros [Hcn Hce] [_ Hok]. split.
  - intros p a [Hin|Heq]%elem_of_snoc.
    + destruct (Hcn p a Hin) as (l & k & v & -> & Hin').
      exists l, k, v. split; [done|]. apply elem_of_snoc. by left.
    + subst c. destruct Hok as (l & k & v & -> & Hin').
      exists l, k, v. split; [done|]. apply elem_of_snoc. by left.
  - intros pa ty pb a [Hin|Heq]%elem_of_snoc.
    + apply elem_of_snoc. left. by eapply Hce.
    + subst c. apply elem_of_snoc. by left.
Qed.

Lemma inv_nil g : inv [] g.
Proof.
  split; try (intros; exfalso; eapply not_elem_of_nil; eassumption).
  - by apply Forall_forall.
  - by apply Forall_forall.
Qed.

Lemma inv_exec_gen cs : ∀ P g,
  inv P g → Forall stable P → closed P → clauses_ok P cs →
  inv (P ++ cs) (exec cs g) ∧ Forall stable (P ++ cs) ∧ closed (P ++ cs).
Proof.
  induction cs as [|c cs IH]; intros P g Hinv HP Hcl Hok.
  { by rewrite app_nil_r. }
  destruct Hok as [Hc Hcs].
  replace (P ++ c :: cs) with ((P ++ [c]) ++ cs) by by rewrite <-app_assoc.
  apply IH; [by apply inv_step| |by apply closed_snoc|done].
  apply Forall_app. split; [done|]. constructor; [apply Hc|done].
Qed.

Lemma inv_exec cs g : clauses_ok [] cs → inv cs (exec cs g) ∧ Forall stable cs.
Proof.
  intros Hok. destruct (inv_exec_gen cs [] g) as (? & ? & ?); try done.
  - apply inv_nil.
  - split; intros; exfalso; eapply not_elem_of_nil; eassumption.
Qed.
End invariant.

Section fixpoint.
Implicit Types (n : node) (e : edge) (p : pattern) (c : clause)
  (P cs : list clause) (ns : list node) (es : list edge) (g : graph).

(** On a graph where every MERGE of [cs] finds what it looks for, [cs]
    runs as its SET clauses, node by node and edge by edge. *)
Lemma exec_saturated cs : ∀ g,
  Forall stable cs →
  (∀ l k v, MergeNode l k v ∈ cs → existsb (matches (Labelled l k v)) (nodes g) = true) →
  (∀ pa ty pb, MergeEdge pa ty pb ∈ cs → ∀ i j,
     matches_at pa (nodes g) i = true → matches_at pb (nodes g) j = true →
     existsb (joins i ty j) (edges g) = true) →
  exec cs g = Graph (map (node_run cs) (nodes g)) (map (edge_run (nodes g) cs) (edges g)).
Proof.
  induction cs as [|c cs IH]; intros g Hst Hn He.
  { destruct g as [ns es]. unfold exec. simpl. f_equal.
    - symmetry. apply map_id.
    - symmetry. apply map_id. }
  apply Forall_cons in Hst as [Hc Hst].
  change (exec (c :: cs) g) with (exec cs (exec1 g c)).
  assert (∀ c', c' ∈ cs → stable c') as Hsts by (by apply Forall_forall).
  destruct c as [l k v|p a|pa ty pb|pa ty pb a].
  - simpl. rewrite (Hn l k v) by (apply elem_of_cons; by left).
    apply IH; [done| |].
    + intros. apply Hn. apply elem_of_cons. by right.
    + intros ??? Hin. apply He. apply elem_of_cons. by right.
  - rewrite IH; [|done| |].
    + simpl. rewrite !map_map. f_equal. apply map_ext. intros e.
      change (edge_run (nodes g) (SetNode p a :: cs) e)
        with (edge_run (nodes g) cs e).
      apply edge_run_agree; [|done]. by apply (agree_map (SetNode p a)).
    + intros l k v Hin. simpl. rewrite (existsb_matches_map (SetNode p a)).
      * apply Hn. apply elem_of_cons. by right.
      * done.
      * apply (Hsts _ Hin).
    + intros pa ty pb Hin i j. simpl. destruct (Hsts _ Hin) as [Ha Hb].
      rewrite !(matches_at_map (SetNode p a)) by done.
      apply He. apply elem_of_cons. by right.
  - assert (exec1 g (MergeEdge pa ty pb) = g) as ->.
    { destruct g as [ns es]. simpl. f_equal. apply foldl_merge_edge_id.
      intros i j [Hi Hj]%elem_of_pairs.
      apply (He pa ty pb); [apply elem_of_cons; by left|done|done]. }
    apply IH; [done| |].
    + intros. apply Hn. apply elem_of_cons. by right.
    + intros ??? Hin. apply He. apply elem_of_cons. by right.
  - rewrite IH; [|done| |].
    + simpl. rewrite !map_map. done.
    + intros l k v Hin. simpl. apply Hn. apply elem_of_cons. by right.
    + intros pa' ty' pb' Hin i j. simpl. rewrite existsb_joins_map.
      apply He. apply elem_of_cons. by right.
Qed.

Lemma map_fix {A} (f : A → A) (l : list A) : Forall (λ x, f x = x) l → map f l = l.
Proof. induction 1 as [|x l Hx _ IH]; [done|]. simpl. by rewrite Hx, IH. Qed.

(** A graph that satisfies the invariant of [cs] is left as it is by [cs]. *)
Lemma exec_fixpoint cs g : Forall stable cs → inv cs g → exec cs g = g.
Proof.
  intros Hst [Hn He Hns Hes]. rewrite exec_saturated by done.
  destruct g as [ns es]. simpl in *. f_equal; by apply map_fix.
Qed.

(** Running a well-formed statement sequence a second time changes nothing. *)
Lemma exec_idempotent cs g : clauses_ok [] cs → exec cs (exec cs g) = exec cs g.
Proof.
  intros Hok. destruct (inv_exec cs g Hok) as [Hinv Hst]. by apply exec_fixpoint.
Qed.



Lemma exec_app cs cs' g : exec (cs ++ cs') g = exec cs' (exec cs g).
Proof. apply foldl_app. Qed.


End fixpoint.

Section monad.
Context {A B : Type}.
Implicit Types (m : M A) (f : A → M B) (w : world).

Lemma result_bind_ok (r : result A) (k : A → result B) b :
  r ≫= k = Ok b → ∃ a, r = Ok a ∧ k a = Ok b.
Proof. destruct r as [a|e]; [|done]. intros H. by exists a. Qed.


End monad.


Lemma world_eta w : World (w_graph w) (w_trace w) = w.
Proof. by destruct w. Qed.






Lemma lift_ok {A} (r : result A) w w' a : lift r w = (w', Ok a) → r = Ok a ∧ w' = w.
Proof. unfold lift. intros [= -> ->]. done. Qed.


Section phases.
Implicit Types (c : clause) (P cs : list clause).

Lemma clauses_ok_app P cs cs' :
  clauses_ok P (cs ++ cs') ↔ clauses_ok P cs ∧ clauses_ok (P ++ cs) cs'.
Proof.
  revert P. induction cs as [|c cs IH]; intros P; simpl.
  { rewrite app_nil_r. tauto. }
  rewrite IH, <-app_assoc. simpl. tauto.
Qed.




Lemma edge_phase_nil : edge_phase [].
Proof. done. Qed.

Lemma edge_phase_app cs cs' : edge_phase cs → edge_phase cs' → edge_phase (cs ++ cs').
Proof. intros H H' P. apply clauses_ok_app. split; [apply H|apply H']. Qed.

Lemma edge_phase_bind {A} (f : A → list clause) (l : list A) :
  (∀ x, edge_phase (f x)) → edge_phase (l ≫= f).
Proof.
  intros Hf. induction l as [|x l IH]; [done|].
  rewrite bind_cons. by apply edge_phase_app.
Qed.








Lemma edge_phase_merge_set pa ty pb a :
  stable_pat pa = true → stable_pat pb = true →
  edge_phase [MergeEdge pa ty pb; SetEdge pa ty pb a].
Proof.
  intros Ha Hb P. split; [by split|]. split; [|done]. split; [by split|].
  apply elem_of_app. right. by apply list_elem_of_singleton.
Qed.
End phases.

Section queries.
Lemma rmapM_ok {A B} (f : A → result B) l bs :
  rmapM f l = Ok bs → Forall2 (λ a b, f a = Ok b) l bs.
Proof.
  revert bs. induction l as [|a l IH]; intros bs; simpl.
  { intros [= <-]. constructor. }
  intros (b & Hb & H)%result_bind_ok. apply result_bind_ok in H as (bs' & Hbs & [= <-]).
  constructor; [done|by apply IH].
Qed.


End queries.

Section more_queries.
Lemma Forall2_zip_r {A B} (P : A → B → Prop) (Q : A * B → Prop) l k :
  Forall2 P l k → (∀ a b, P a b → Q (a, b)) → Forall Q (zip l k).
Proof. intros H HQ. induction H; constructor; auto. Qed.


Lemma foreach_out_phase r : edge_phase (foreach_out r).
Proof.
  unfold foreach_out. destruct (create_out _); [|done].
  by apply edge_phase_merge_set.
Qed.
Lemma foreach_in_phase r : edge_phase (foreach_in r).
Proof.
  unfold foreach_in. destruct (create_in _); [|done].
  by apply edge_phase_merge_set.
Qed.

Lemma query_relationships_phase rows : edge_phase (query_relationships rows).
Proof.
  apply edge_phase_app; apply edge_phase_bind;
    auto using foreach_out_phase, foreach_in_phase.
Qed.


Lemma filter_set_head p a ns :
  stable (SetNode p a) → existsb (matches p) ns = true →
  ∃ n rest, List.filter (matches p) (map (node_step (SetNode p a)) ns)
            = set_node a n :: rest.
Proof.
  intros Hc Hex. induction ns as [|n ns IH]; [done|].
  cbn [map List.filter]. rewrite (matches_node_step (SetNode p a) p n) by apply Hc.
  cbn [existsb] in Hex. destruct (matches p n) eqn:Hm.
  - cbn [node_step]. rewrite Hm. eauto.
  - apply IH. by rewrite orb_false_l in Hex.
Qed.

Lemma merge_node_exists l k v g :
  existsb (matches (Labelled l k v)) (nodes (exec1 g (MergeNode l k v))) = true.
Proof.
  cbn [exec1]. destruct (existsb _ (nodes g)) eqn:E; [done|].
  cbn [nodes]. rewrite existsb_app. cbn [existsb].
  by rewrite matches_new_self, !orb_true_r.
Qed.

(** The row [create_schema_block] reads back carries the identities it
    has just written. *)
Lemma returned_row_written s d t v a x g :
  returned_row d (exec (query_schema_block s d t v a x) g) = Ok (JStr s, JStr d).
Proof.
  unfold query_schema_block, exec. cbn [foldl].
  pose proof (merge_node_exists "SchemaBlock" "id" d g) as Hex.
  destruct (exec1 g (MergeNode "SchemaBlock" "id" d)) as [ns es].
  cbn [exec1 nodes] in *. unfold returned_row. cbn [nodes].
  edestruct (filter_set_head (schema_block_pattern d)) as (n & rest & ->);
    [|exact Hex|].
  { split; [done|]. repeat constructor. }
  unfold prop. cbn [set_node n_props]. rewrite !lookup_set_props. done.
Qed.
End more_queries.

Section emitted_clauses.
Lemma emitted_schema_block s d t v a x : Forall (emitted s d) (query_schema_block s d t v a x).
Proof.
  apply Forall_cons. split; [by left|]. apply Forall_cons. split; [|done].
  left. split; [done|]. by exists t, v, a, x.
Qed.

Lemma emitted_query_nodes lbl s d items cs :
  lbl = "Entity" ∨ lbl = "RefType" →
  query_nodes lbl lbl (JStr s) items = Ok cs → Forall (emitted s d) cs.
Proof.
  intros Hl. unfold query_nodes. cbn [as_str]. intros H.
  apply result_bind_ok in H as (s' & [= <-] & H).
  apply result_bind_ok in H as (sets & Hsets & [= <-]).
  apply rmapM_ok in Hsets. apply Forall_app. split.
  - apply Forall_fmap, Forall_forall. intros [nm data] _. simpl. right.
    split; [|done]. destruct Hl; auto.
  - induction Hsets as [|[nm data] c items sets Hc _ IH]; [done|].
    apply result_bind_ok in Hc as (label & _ & [= <-]).
    constructor; [|done]. right. left. by eexists lbl, _, _, label.
Qed.

Lemma emitted_query_fields s d rows cs :
  query_fields rows = Ok cs → Forall (emitted s d) cs.
Proof.
  unfold query_fields. intros (fqns & _ & [= <-])%result_bind_ok.
  rewrite !Forall_app. split_and!; apply Forall_fmap, Forall_forall; intros x _; simpl.
  - right. split; [|done]. auto.
  - right. right. by eexists _, _.
  - left. split; [done|]. by eexists.
Qed.

Lemma emitted_query_relationships s d rows :
  Forall (emitted s d) (query_relationships rows).
Proof.
  apply Forall_app. split; apply Forall_forall; intros c Hin;
    apply list_elem_of_bind in Hin as (r & Hin & _).
  - unfold foreach_out in Hin. destruct (create_out _); [|by apply elem_of_nil in Hin].
    apply elem_of_cons in Hin as [->|Hin]; [by right; left|].
    apply list_elem_of_singleton in Hin as ->. done.
  - unfold foreach_in in Hin. destruct (create_in _); [|by apply elem_of_nil in Hin].
    apply elem_of_cons in Hin as [->|Hin]; [by right; left|].
    apply list_elem_of_singleton in Hin as ->. done.
Qed.

Lemma emitted_query_link s d : Forall (emitted s d) (query_link s d).
Proof. apply Forall_cons. split; [|done]. right. right. done. Qed.
End emitted_clauses.

Section steps.
Implicit Types (w : world) (data : dict) (ev : env).









End steps.

Section sends_rules.
Lemma M_bind_inv {A B} (m : M A) (f : A → M B) w w' r :
  (m ≫= f) w = (w', r) →
  (∃ e, m w = (w', Raise e) ∧ r = Raise e) ∨
  (∃ w1 a, m w = (w1, Ok a) ∧ f a w1 = (w', r)).
Proof.
  unfold mbind, M_bind. destruct (m w) as [w1 [a|e]].
  - intros H. right. by exists w1, a.
  - intros [= <- <-]. left. by exists e.
Qed.

Lemma sends_bind {A B} s d (m : M A) (f : A → M B) :
  sends s d m → (∀ a w w', m w = (w', Ok a) → sends s d (f a)) → sends s d (m ≫= f).
Proof.
  intros Hm Hf w w' r [(e & H & _)|(w1 & a & H & H')]%M_bind_inv.
  - by eapply Hm.
  - destruct (Hm _ _ _ H) as (evs & cs & Hcs & ->).
    destruct (Hf a _ _ H _ _ _ H') as (evs' & cs' & Hcs' & ->).
    exists (evs ++ evs'), (cs ++ cs'). split; [by apply Forall_app|].
    simpl. by rewrite exec_app, app_assoc.
Qed.

Lemma sends_nothing {A} s d (m : M A) : (∀ w w' r, m w = (w', r) → w' = w) → sends s d m.
Proof.
  intros H w w' r ->%H. exists [], []. split; [done|].
  unfold exec. simpl. by rewrite app_nil_r, world_eta.
Qed.

Lemma sends_ret {A} s d (a : A) : sends s d (mret a).
Proof. apply sends_nothing. by intros w w' r [= <- _]. Qed.
Lemma sends_lift {A} s d (x : result A) : sends s d (lift x).
Proof. apply sends_nothing. by intros w w' r [= <- _]. Qed.
Lemma sends_raise {A} s d e : sends s d (raise e : M A).
Proof. apply sends_nothing. by intros w w' r [= <- _]. Qed.
Lemma sends_run_read {A} s d (f : graph → result A) : sends s d (run_read f).
Proof. apply sends_nothing. by intros w w' r [= <- _]. Qed.

Lemma sends_emit s d evs : sends s d (emit evs).
Proof. intros w w' r [= <- _]. by exists evs, []. Qed.

Lemma sends_when s d b evs : sends s d (when b (emit evs)).
Proof. destruct b; [apply sends_emit|apply sends_ret]. Qed.

Lemma sends_run_write s d x :
  (∀ cs, x = Ok cs → Forall (emitted s d) cs) → sends s d (run_write x).
Proof.
  intros H w w' r. unfold run_write. destruct x as [cs|e].
  - intros [= <- _]. exists [], cs. split; [by apply H|by rewrite app_nil_r].
  - intros [= <- _]. exists [], []. split; [done|].
    unfold exec. simpl. by rewrite app_nil_r, world_eta.
Qed.

Lemma sends_finally {A} s d (m : M A) evs : sends s d m → sends s d (finally m (emit evs)).
Proof.
  intros Hm w w' r. unfold finally. destruct (m w) as [w1 r1] eqn:E.
  cbn. intros [= <- _]. destruct (Hm _ _ _ E) as (evs' & cs & Hcs & ->).
  exists (evs' ++ evs), cs. split; [done|]. simpl. by rewrite app_assoc.
Qed.
End sends_rules.

Section pipeline_sends.
Implicit Types (ev : env) (data : dict).

Lemma create_schema_block_sends ev data :
  ∃ s d, sends s d (create_schema_block ev data) ∧
    ∀ w w' ids, create_schema_block ev data w = (w', Ok ids) → ids = (JStr s, JStr d).
Proof.
  unfold create_schema_block.
  destruct (meta_of data) as [meta|e] eqn:Hmeta.
  2:{ exists "", "". split; [|by intros w w' ids [= _]].
      apply sends_nothing. by intros w w' r [= <- _]. }
  destruct (derive_spec_id (dict_get_default "source" (JStr "unknown") meta) meta)
    as [ids0|e] eqn:Hids.
  2:{ exists "", "". split.
      - apply sends_nothing. intros w w' r. unfold mbind, M_bind, lift.
        rewrite Hids. by intros [= <- _].
      - intros w w' ids. unfold mbind, M_bind, lift. by rewrite Hids. }
  destruct (as_str ids0.1) as [s|e] eqn:Hs.
  2:{ exists "", "". split.
      - apply sends_nothing. intros w w' r. unfold mbind, M_bind, lift.
        rewrite Hids, Hs. by intros [= <- _].
      - intros w w' ids. unfold mbind, M_bind, lift. by rewrite Hids, Hs. }
  destruct (as_str ids0.2) as [d|e] eqn:Hd.
  2:{ exists "", "". split.
      - apply sends_nothing. intros w w' r. unfold mbind, M_bind, lift.
        rewrite Hids, Hs, Hd. by intros [= <- _].
      - intros w w' ids. unfold mbind, M_bind, lift. by rewrite Hids, Hs, Hd. }
  exists s, d. split.
  - apply sends_bind; [apply sends_lift|]. intros meta' w w' [[= ->] _]%lift_ok.
    rewrite Hids. apply sends_bind; [apply sends_lift|].
    intros ? w1 w1' [[= <-] _]%lift_ok.
    rewrite Hs. apply sends_bind; [apply sends_lift|].
    intros ? w2 w2' [[= <-] _]%lift_ok.
    rewrite Hd. apply sends_bind; [apply sends_lift|].
    intros ? w3 w3' [[= <-] _]%lift_ok.
    apply sends_bind; [|intros; apply sends_run_read].
    apply sends_run_write. intros cs [= <-]. apply emitted_schema_block.
  - intros w w' ids H. unfold mbind, M_bind, lift in H. cbv beta iota in H.
    rewrite Hids in H. cbv beta iota in H. rewrite Hs in H. cbv beta iota in H.
    rewrite Hd in H. cbv beta iota in H.
    unfold run_write, run_read in H. cbv beta iota in H. cbn [w_graph] in H.
    rewrite returned_row_written in H. by injection H as _ <-.
Qed.

Lemma node_batch_sends s d lbl items :
  lbl = "Entity" ∨ lbl = "RefType" →
  sends s d (match items with
             | [] => mret []
             | _ => _ ← run_write (query_nodes lbl lbl (JStr s) items);
                    mret (returned_fqns (JStr s) items)
             end).
Proof.
  intros Hl. destruct items; [apply sends_ret|].
  apply sends_bind; [|intros; apply sends_ret].
  apply sends_run_write. intros cs. by apply emitted_query_nodes.
Qed.

Lemma upsert_entities_sends s d data : sends s d (upsert_entities data (JStr s)).
Proof.
  unfold upsert_entities. destruct (dict_lookup "entities" data); [|apply sends_ret].
  apply sends_bind; [apply sends_lift|]. intros ents _ _ _.
  apply sends_bind; [apply sends_lift|]. intros kinds _ _ _. cbv zeta.
  apply sends_bind; [apply (node_batch_sends s d "Entity"); auto|]. intros ? _ _ _.
  apply sends_bind; [apply (node_batch_sends s d "RefType"); auto|]. intros ? _ _ _.
  apply sends_ret.
Qed.

Lemma upsert_fields_sends s d data fqns : sends s d (upsert_fields data fqns).
Proof.
  unfold upsert_fields. destruct (dict_lookup "entities" data); [|apply sends_ret].
  apply sends_bind; [apply sends_lift|]. intros ents _ _ _.
  apply sends_bind; [apply sends_lift|]. intros rows _ _ _.
  destruct (mjoin rows); [apply sends_ret|].
  apply sends_run_write. intros cs. apply emitted_query_fields.
Qed.

Lemma upsert_relationships_sends s d data fqns :
  sends s d (upsert_relationships data fqns).
Proof.
  unfold upsert_relationships.
  destruct (dict_lookup "relationships" data); [|apply sends_ret].
  apply sends_bind; [apply sends_lift|]. intros rels _ _ _.
  apply sends_bind; [apply sends_lift|]. intros rows _ _ _.
  destruct rows; [apply sends_ret|].
  apply sends_run_write. intros cs [= <-]. apply emitted_query_relationships.
Qed.

Lemma link_containment_sends s d : sends s d (link_containment (JStr s) (JStr d)).
Proof. apply sends_run_write. intros cs [= <-]. apply emitted_query_link. Qed.

Lemma write_all_sends ev data f1 f2 : ∃ s d, sends s d (write_all ev data f1 f2).
Proof.
  destruct (create_schema_block_sends ev data) as (s & d & Hsb & Hids).
  exists s, d. unfold write_all.
  apply sends_bind; [apply sends_when|]. intros _ _ _ _.
  apply sends_bind; [apply sends_when|]. intros _ _ _ _.
  apply sends_bind; [apply Hsb|]. intros ids w w' ->%Hids. cbn [fst snd].
  apply sends_bind; [apply upsert_entities_sends|]. intros fqns _ _ _.
  apply sends_bind; [apply upsert_fields_sends|]. intros _ _ _ _.
  apply sends_bind; [apply upsert_relationships_sends|]. intros _ _ _ _.
  apply link_containment_sends.
Qed.

Lemma check_valid_sends s d data : sends s d (check_valid data).
Proof.
  unfold check_valid. apply sends_bind; [apply sends_lift|]. intros errors _ _ _.
  destruct errors; [apply sends_ret|apply sends_raise].
Qed.

(** Whatever the outcome of a run, the store has been changed by clauses
    of the run only. *)
Lemma populate_sends ev data f1 f2 v : ∃ s d, sends s d (populate_neo4j ev data f1 f2 v).
Proof.
  destruct (write_all_sends ev data f1 f2) as (s & d & H). exists s, d.
  unfold populate_neo4j. destruct (negb _); [apply sends_raise|].
  apply sends_bind.
  { destruct v; [apply check_valid_sends|apply sends_ret]. }
  intros _ _ _ _. apply sends_bind; [apply sends_emit|]. intros _ _ _ _.
  by apply sends_finally.
Qed.

Lemma exec_keeps (I : graph → Prop) s d cs g :
  (∀ g c, emitted s d c → I g → I (exec1 g c)) →
  Forall (emitted s d) cs → I g → I (exec cs g).
Proof.
  intros Hstep Hcs. revert g. induction Hcs as [|c cs Hc _ IH]; intros g Hg; [done|].
  apply IH. by apply Hstep.
Qed.

(** An invariant of the store that every clause of a run keeps is kept by
    the run, whatever its outcome. *)
Lemma populate_keeps (I : graph → Prop) ev data f1 f2 v w w' r :
  (∀ s d g c, emitted s d c → I g → I (exec1 g c)) →
  I (w_graph w) → populate_neo4j ev data f1 f2 v w = (w', r) → I (w_graph w').
Proof.
  intros Hstep Hw H. destruct (populate_sends ev data f1 f2 v) as (s & d & Hs).
  destruct (Hs _ _ _ H) as (evs & cs & Hcs & ->). simpl.
  eapply exec_keeps; [apply Hstep|done|done].
Qed.
End pipeline_sends.

(** ** Vocabulary of the claims *)

(** C1. Direction materialization.  The nodes of [A] and [B] are 1 and 2.
    [out] gives the one edge A→B and [bidirectional] both edges, the second
    with the cardinalities swapped; [in] gives no edge at all, because
    [create_in] answers false for it ([ELSE false]) as [create_out] does. *)
Theorem direction_in_creates_no_edge :
  relations_after (doc_direction "out")
    = Ok [(1, 2, JStr "out", JStr "1", JStr "0..*")] ∧
  relations_after (doc_direction "bidirectional")
    = Ok [(1, 2, JStr "out", JStr "1", JStr "0..*");
          (2, 1, JStr "in", JStr "0..*", JStr "1")] ∧
  relations_after (doc_direction "in") = Ok [] ∧
  create_out (JStr "in") = false ∧ create_in (JStr "in") = false.
Proof. split_and!; by vm_compute. Qed.

(** C6. [derive_spec_id]: the metadata comes first and the parent directory
    or the prefix of the file name is used when it is a spec token; but for
    a path without spec token whose stem has an underscore the fall-back
    returns the part of the stem before the underscore, not the parent
    directory and not ["default"]. *)
Theorem derive_spec_id_fallback_uses_stem_prefix :
  derive_spec_id (JStr "tmf622/page1.png") [] = Ok (JStr "tmf622", JStr "page1") ∧
  derive_spec_id (JStr "x/y.png") [("specId", JStr "tmf1"); ("diagramId", JStr "d1")]
    = Ok (JStr "tmf1", JStr "d1") ∧
  derive_spec_id (JStr "x/y.png") [("specId", JStr "tmf1")] = Ok (JStr "tmf1", JStr "y") ∧
  derive_spec_id (JStr "diagrams/tmf620_productoffering.png") []
    = Ok (JStr "tmf620", JStr "productoffering") ∧
  derive_spec_id (JStr "diagrams/orders.png") [] = Ok (JStr "diagrams", JStr "orders") ∧
  derive_spec_id (JStr "orders.png") [] = Ok (JStr "default", JStr "orders") ∧
  derive_spec_id (JStr "diagrams/order_model.png") []
    = Ok (JStr "order", JStr "order_model") ∧
  derive_spec_id (JStr "order_model.png") [] = Ok (JStr "order", JStr "order_model").
Proof. split_and!; by vm_compute. Qed.





(** C7. With validation on, a document for which [validate_extracted_data]
    returns errors ends the run with an exception before anything is done:
    the world (store and trace) is the one the run started in.  With
    validation off the validator is not consulted: the connection is opened
    and the writes are run, whatever the document. *)
Theorem validation_gates_population ev data f1 f2 w :
  (∀ errors, validate_extracted_data data = Ok errors → errors ≠ [] →
     populate_neo4j ev data f1 f2 true w =
       (w, Raise (if driver_installed ev then ValueError errors else ImportError))) ∧
  (driver_installed ev = true →
     populate_neo4j ev data f1 f2 false w =
       finally (write_all ev data f1 f2) (emit [Closed])
               (World (w_graph w) (w_trace w ++ [Connected])) ∧
     ∃ w' r evs, populate_neo4j ev data f1 f2 false w = (w', r) ∧
                 w_trace w' = w_trace w ++ Connected :: evs).
Proof.
  split.
  - intros errors Hv Hne. unfold populate_neo4j.
    destruct (driver_installed ev); [|done]. cbn [negb when].
    unfold mbind at 1, M_bind at 1, check_valid. unfold mbind at 1, M_bind at 1, lift.
    rewrite Hv. destruct errors; [done|]. done.
  - intros Hd. unfold populate_neo4j. rewrite Hd. cbn [negb when].
    split; [done|].
    destruct (finally (write_all ev data f1 f2) (emit [Closed])
                (World (w_graph w) (w_trace w ++ [Connected]))) as [w' r] eqn:E.
    destruct (write_all_sends ev data f1 f2) as (s & d & Hs).
    destruct (sends_finally s d _ [Closed] Hs _ _ _ E) as (evs & cs & _ & ->).
    cbn [w_graph w_trace] in E.
    exists (World (exec cs (w_graph w)) ((w_trace w ++ [Connected]) ++ evs)), r, evs.
    split; [|by cbn [w_trace]; rewrite <-app_assoc].
    unfold mbind, M_bind, mret, M_ret, emit. exact E.
Qed.

Lemma validation_gates_population_witness :
  populate_neo4j ev0 doc_defects true true true w0 =
    (w0, Raise (ValueError [RelEntityNotFound 0 "to" (JStr "B");
                            CardInvalidFormat "Relationship[0].cardinality" "many";
                            InvalidDirection 0 (JStr "sideways")])) ∧
  ∃ w' r evs, populate_neo4j ev0 doc_defects true true false w0 = (w', r) ∧
              w_trace w' = w_trace w0 ++ Connected :: evs.
Proof.
  split.
  - apply (validation_gates_population ev0 doc_defects true true w0);
      [vm_compute; reflexivity|discriminate].
  - apply (validation_gates_population ev0 doc_defects true true w0). reflexivity.
Defined.

(** *** C9: relationships with an unresolved endpoint *)

(** C9, as the claim states it, fails: both endpoints of the relationship
    of [doc_empty_name] are in the entity map, the document is valid, and
    yet the relationship is left out of the batch and no edge is written:
    the test [if from_entity and to_entity] takes the empty name for a
    missing one. *)
Lemma empty_name_relationship_dropped :
  let entity_fqns := returned_fqns (JStr "tmf622") [("", JDict []); ("A", JDict [])] in
  validate_extracted_data doc_empty_name = Ok [] ∧
  fqns_get "" entity_fqns = Some "tmf622#" ∧
  fqns_get "A" entity_fqns = Some "tmf622#A" ∧
  relationships_list entity_fqns [JDict [("from", JStr ""); ("to", JStr "A")]] = Ok [] ∧
  relations_after doc_empty_name = Ok [].
Proof. split_and!; by vm_compute. Qed.

Ltac case_guards :=
  repeat (cbn in *; try done;
    match goal with
    | |- context [fqns_get ?x ?y] => destruct (fqns_get x y) eqn:?
    | |- context [if ?b then _ else _] => destruct b eqn:?
    end).

Lemma rel_row_of_resolved entity_fqns rel :
  relationship_shaped rel → rel_row_of entity_fqns rel = Ok (resolved_row entity_fqns rel).
Proof.
  destruct rel as [| | | | |r]; try done. intros [Hf Ht].
  unfold rel_row_of, resolved_row.
  destruct (dict_get "from" r) as [|[]|n|f|?|?]; try done;
    destruct (dict_get "to" r) as [|[]|m|t|?|?]; try done;
    unfold endpoint_fqn, fqns_get_value; case_guards.
Qed.

(** C9, amended.  The batch is made of the relationships whose [from] and
    [to] are non-empty names that the entity map resolves, in document
    order; every other relationship (a key absent, an empty or unknown
    name) is left out, and building the batch raises nothing. *)
Theorem unresolved_relationships_dropped entity_fqns rels :
  Forall relationship_shaped rels →
  relationships_list entity_fqns rels = Ok (omap (resolved_row entity_fqns) rels).
Proof.
  intros H. unfold relationships_list.
  assert (rmapM (rel_row_of entity_fqns) rels = Ok (resolved_row entity_fqns <$> rels))
    as ->.
  { induction H as [|rel rels Hrel _ IH]; [done|].
    simpl. rewrite rel_row_of_resolved by done. cbn. rewrite IH. done. }
  change (Ok (omap id (resolved_row entity_fqns <$> rels))
          = Ok (omap (resolved_row entity_fqns) rels)).
  f_equal. clear H. induction rels as [|rel rels IH]; [done|].
  cbn [fmap list_fmap omap list_omap]. rewrite <-IH.
  by destruct (resolved_row entity_fqns rel).
Qed.

Lemma unresolved_relationships_dropped_witness :
  relationships_list [("A", "s#A"); ("B", "s#B")]
    [JDict [("from", JStr "A"); ("to", JStr "Ghost")];
     JDict [("to", JStr "B")];
     JDict [("from", JStr "A"); ("to", JStr "B"); ("type", JStr "has")]]
  = Ok [mk_rel_row "s#A" "s#B" [("from", JStr "A"); ("to", JStr "B"); ("type", JStr "has")]].
Proof.
  rewrite (unresolved_relationships_dropped [("A", "s#A"); ("B", "s#B")]).
  - reflexivity.
  - repeat constructor.
Defined.

(** *** C5: the kind allowlist *)

Lemma kinds_ok_step s d g c : emitted s d c → kinds_ok g → kinds_ok (exec1 g c).
Proof.
  intros Hc Hg. destruct c as [l k v|p a|pa ty pb|pa ty pb a]; try done.
  - simpl. destruct (existsb _ _); [done|]. apply Forall_app. split; [done|].
    constructor; [|done]. split; simpl.
    + left. apply lookup_singleton_ne.
      destruct Hc as [(_ & -> & _)|[_ ->]]; done.
    + constructor; [|done]. destruct Hc as [(-> & _)|[[->|[->| ->]] _]]; auto.
  - apply Forall_fmap. eapply Forall_impl; [exact Hg|]. intros n [Hk Hl].
    simpl. destruct (matches p n); [|done]. split; [|done]. simpl.
    rewrite lookup_set_props.
    destruct Hc as [(_ & t & v & ar & x & ->)|[(l & f & nm & label & Hl' & _ & ->)|
                    (f & r & _ & ->)]]; try done.
    destruct Hl' as [-> | ->]; auto.
Qed.

(** C5. [determine_entity_kind]: a name ending in "Ref" or "Reference"
    gives RefType whatever is declared; otherwise a declared string is
    returned if it is in [ALLOWED_KINDS] and replaced by "Entity" if not; a
    declared value that is not a string is never returned either.  And the
    run, whatever its document, flags and outcome, keeps the store such that
    every [kind] is "Entity" or "RefType" and every label one of the four of
    the schema: a declared kind such as "Hacked" is not written. *)
Theorem declared_kind_never_stored :
  (∀ entity_name entity_data, has_suffix entity_name = true →
     determine_entity_kind entity_name entity_data = Ok "RefType") ∧
  (∀ entity_name d kind, has_suffix entity_name = false →
     dict_lookup "kind" d = Some (JStr kind) →
     determine_entity_kind entity_name (JDict d)
       = Ok (if in_strs kind ALLOWED_KINDS then kind else "Entity")) ∧
  (∀ entity_name d, has_suffix entity_name = false →
     dict_lookup "kind" d = None →
     determine_entity_kind entity_name (JDict d) = Ok "Entity") ∧
  (∀ entity_name d v, has_suffix entity_name = false →
     dict_lookup "kind" d = Some v → (∀ kind, v ≠ JStr kind) →
     determine_entity_kind entity_name (JDict d) = Ok "Entity" ∨
     determine_entity_kind entity_name (JDict d) = Raise TypeError) ∧
  (∀ ev data f1 f2 validate w w' r,
     kinds_ok (w_graph w) →
     populate_neo4j ev data f1 f2 validate w = (w', r) →
     kinds_ok (w_graph w')).
Proof.
  split_and!.
  - intros nm data H. unfold determine_entity_kind. fold (has_suffix nm). by rewrite H.
  - intros nm d kind H Hk. unfold determine_entity_kind. fold (has_suffix nm).
    rewrite H. cbn. unfold dict_has. rewrite Hk. cbn. rewrite ?Hk. cbn.
    by destruct (_ || _).
  - intros nm d H Hk. unfold determine_entity_kind. fold (has_suffix nm).
    rewrite H. cbn. unfold dict_has. by rewrite Hk.
  - intros nm d v H Hk Hv. unfold determine_entity_kind. fold (has_suffix nm).
    rewrite H. cbn. unfold dict_has. rewrite Hk. cbn. rewrite ?Hk. cbn.
    destruct v; cbn; auto. by destruct (Hv s).
  - intros ev data f1 f2 v w w' r Hw H.
    eapply (populate_keeps kinds_ok); [|exact Hw|exact H].
    intros s d g c. apply kinds_ok_step.
Qed.

Lemma declared_kind_never_stored_witness :
  determine_entity_kind "OrderRef" (JDict [("kind", JStr "Hacked")]) = Ok "RefType" ∧
  determine_entity_kind "Order" (JDict [("kind", JStr "Hacked")]) = Ok "Entity" ∧
  determine_entity_kind "Order" (JDict [("kind", JStr "SchemaBlock")]) = Ok "SchemaBlock" ∧
  determine_entity_kind "Order" (JDict []) = Ok "Entity" ∧
  (determine_entity_kind "Order" (JDict [("kind", JList [])]) = Ok "Entity" ∨
   determine_entity_kind "Order" (JDict [("kind", JList [])]) = Raise TypeError) ∧
  kinds_ok (w_graph (populate_neo4j ev0 doc_hacked true true false w0).1).
Proof.
  destruct declared_kind_never_stored as (H1 & H2 & H3 & H4 & H5). split_and!.
  - apply H1. reflexivity.
  - apply (H2 "Order" [("kind", JStr "Hacked")] "Hacked"); reflexivity.
  - apply (H2 "Order" [("kind", JStr "SchemaBlock")] "SchemaBlock"); reflexivity.
  - apply H3; reflexivity.
  - apply (H4 "Order" [("kind", JList [])] (JList [])); [reflexivity|reflexivity|].
    intros kind. discriminate.
  - apply (H5 ev0 doc_hacked true true false w0 _
             (populate_neo4j ev0 doc_hacked true true false w0).2).
    + constructor.
    + apply surjective_pairing.
Defined.

(** *** C10: containment links *)

Section containment.
Implicit Types (g : graph) (n : node) (c : clause).







End containment.



(** *** C3: running twice *)




(** *** C2: the merge key of relationship edges *)

(** C2, as the claim states it, fails: the two definitions of
    [doc_two_types] differ in type and end as one edge A→B (nodes 1 and 2),
    which carries the type of the second. *)
Lemma definitions_differing_in_type_share_one_edge :
  validate_extracted_data doc_two_types = Ok [] ∧
  typed_relations_after doc_two_types = Ok [(1, 2, JStr "uses")].
Proof. split; by vm_compute. Qed.

Section merge_key.
Implicit Types (g : graph) (e : edge).

Lemma skeleton_set pa ty pb a g :
  skeleton (exec1 g (SetEdge pa ty pb a)) = skeleton g.
Proof.
  unfold skeleton. cbn [exec1 edges]. rewrite <-list_fmap_compose.
  apply list_fmap_ext. intros _ e _. cbn.
  by destruct (edge_bound pa ty pb (nodes g) e).
Qed.

Lemma merge_after_set pa ty pb a g :
  exec1 (exec [MergeEdge pa ty pb; SetEdge pa ty pb a] g) (MergeEdge pa ty pb)
  = exec [MergeEdge pa ty pb; SetEdge pa ty pb a] g.
Proof.
  unfold exec. cbn [foldl]. set (g1 := exec1 g (MergeEdge pa ty pb)).
  cbn [exec1 nodes edges]. f_equal. apply foldl_merge_edge_id.
  intros i j Hin. rewrite existsb_joins_map.
  unfold g1. cbn [exec1 nodes edges] in *. by apply foldl_merge_edge_covers.
Qed.

Lemma foreach_out_only r :
  out_only r →
  query_relationships [r] =
    [MergeEdge (Keyed "fqn" (from_fqn r)) "RELATES_TO" (Keyed "fqn" (to_fqn r));
     SetEdge (Keyed "fqn" (from_fqn r)) "RELATES_TO" (Keyed "fqn" (to_fqn r))
       (rel_props "out" (from_cardinality r) (to_cardinality r) r)].
Proof.
  intros [Ho Hi]. unfold query_relationships. cbn. unfold foreach_out, foreach_in.
  by rewrite Ho, Hi.
Qed.

Lemma query_relationships_cons r rows :
  out_only r →
  query_relationships (r :: rows) = query_relationships [r] ++ query_relationships rows.
Proof.
  intros [Ho Hi]. unfold query_relationships. cbn. unfold foreach_in at 1 3.
  rewrite Hi. cbn. by rewrite !app_nil_r, <-app_assoc.
Qed.
End merge_key.

(** C2, amended.  The MERGE pattern of a relationship edge names its two end
    nodes and nothing else.  Two definitions between the same resolved
    endpoints that both materialize the forward edge share the edges of the
    first: the second adds none, and leaves on them its own type, direction
    tag and cardinalities; running the two again changes nothing. *)
Theorem relationship_edges_merge_on_endpoints g r1 r2 :
  from_fqn r2 = from_fqn r1 → to_fqn r2 = to_fqn r1 → out_only r1 → out_only r2 →
  let g1 := exec (query_relationships [r1]) g in
  let g12 := exec (query_relationships [r1; r2]) g in
  nodes g12 = nodes g1 ∧ skeleton g12 = skeleton g1 ∧
  Forall (λ e,
      edge_bound (Keyed "fqn" (from_fqn r1)) "RELATES_TO" (Keyed "fqn" (to_fqn r1))
        (nodes g12) e = true →
      e_props e !! "type" = stored (rel_type r2) ∧
      e_props e !! "direction" = Some (JStr "out") ∧
      e_props e !! "fromCardinality" = stored (from_cardinality r2) ∧
      e_props e !! "toCardinality" = stored (to_cardinality r2)) (edges g12) ∧
  exec (query_relationships [r1; r2]) g12 = g12.
Proof.
  intros Hf Ht H1 H2 g1 g12. split_and!.
  - subst g1 g12. rewrite (query_relationships_cons r1 [r2]) by done.
    rewrite exec_app, !foreach_out_only by done. done.
  - subst g1 g12. rewrite (query_relationships_cons r1 [r2]) by done.
    rewrite exec_app, !foreach_out_only by done. rewrite Hf, Ht.
    set (c := SetEdge _ _ _ (rel_props "out" (from_cardinality r2) _ r2)).
    change (exec [?m; c] ?h) with (exec1 (exec1 h m) c).
    rewrite merge_after_set. apply skeleton_set.
  - subst g12. rewrite (query_relationships_cons r1 [r2]) by done.
    rewrite exec_app, !foreach_out_only by done. rewrite Hf, Ht.
    set (c := SetEdge _ _ _ (rel_props "out" (from_cardinality r2) _ r2)).
    change (exec [?m; c] ?h) with (exec1 (exec1 h m) c).
    rewrite merge_after_set. cbn [exec1 nodes edges]. apply Forall_fmap, Forall_forall.
    intros e _. unfold compose. rewrite edge_bound_step. intros Hb.
    unfold c. cbn [edge_step]. rewrite Hb. unfold set_edge. cbn [e_props].
    rewrite !lookup_set_props. done.
  - apply exec_idempotent. apply query_relationships_phase.
Qed.

Lemma relationship_edges_merge_on_endpoints_witness :
  let g := exec [MergeNode "Entity" "fqn" "s#A"; MergeNode "Entity" "fqn" "s#B"]
             empty_graph in
  let r1 := mk_rel_row "s#A" "s#B" [("type", JStr "has")] in
  let r2 := mk_rel_row "s#A" "s#B" [("type", JStr "uses"); ("cardinality", JStr "1")] in
  skeleton (exec (query_relationships [r1; r2]) g) = [(0, "RELATES_TO", 1)] ∧
  Forall (λ e,
      edge_bound (Keyed "fqn" "s#A") "RELATES_TO" (Keyed "fqn" "s#B")
        (nodes (exec (query_relationships [r1; r2]) g)) e = true →
      e_props e !! "type" = Some (JStr "uses") ∧
      e_props e !! "direction" = Some (JStr "out") ∧
      e_props e !! "fromCardinality" = Some (JStr "1") ∧
      e_props e !! "toCardinality" = Some (JStr "1"))
    (edges (exec (query_relationships [r1; r2]) g)).
Proof.
  intros g r1 r2.
  destruct (relationship_edges_merge_on_endpoints g r1 r2) as (_ & Hsk & Hp & _).
  - reflexivity.
  - reflexivity.
  - split; reflexivity.
  - split; reflexivity.
  - split; [|exact Hp]. cbv zeta in Hsk. rewrite Hsk. vm_compute. reflexivity.
Defined.
